(** * AY/YM chiptune replayer: register decoding, envelope, transport, loader

    Shallow embedding of [AY-Music/ayReplayer.js] (class [AYReplayer] and
    [envelopeLevel]), of the lookahead scheduler and the button handlers of
    the page script ([startFrames] / [stopFrames]), of the YM loader
    ([loadAndParse], [parseYM]) and of the arithmetic of
    [AY-Music/visualizer.js] ([setFFTSize], [_draw]).

    Number model.  A JavaScript Number is embedded as an exact rational
    ([Q]); integers that the code pushes through the bitwise operators are
    embedded as [Z] with the operators of [Z] ([Z.land], [Z.lor],
    [Z.shiftl]).  Rounding of IEEE doubles, NaN and the infinities are not
    part of the model.  Register frames are [Uint8Array]s, embedded as lists
    of bytes; an index past the end reads [undefined], which every use in
    [applyRegs] feeds to a bitwise operator, where it counts as 0.

    Audio sinks.  An [AudioParam] ([osc.frequency], [gain.gain],
    [bp.frequency]) is embedded as the last value handed to
    [setValueAtTime].  [ctx.currentTime] is an input: [applyRegs] takes the
    value it reads as the argument [now]; the scheduler reads it from a
    sequence of successive clock readings.

    Failure.  A division whose divisor is 0 yields a non-finite Number in
    JavaScript, and [setValueAtTime] raises a [TypeError] on a non-finite
    value.  The embedding makes this the one way [applyRegs] can fail:
    [Num.div] is partial and [applyRegs] returns an [option]. *)

From Stdlib Require Import Strings.String Strings.Byte.
From Stdlib Require Import ZArith QArith Qround Qabs List Bool Lia Lqa.
Import ListNotations.

Local Open Scope Z_scope.

(** ** JavaScript Number primitives used by the sources *)

Module Num.

(** [x < y] *)
Definition ltb (x y : Q) : bool := negb (Qle_bool y x).

(** ToBoolean on a Number: 0 is falsy. *)
Definition truthy (x : Q) : bool := negb (Qeq_bool x 0).

(** [x || d] *)
Definition or_else (x d : Q) : Q := if truthy x then x else d.

(** [Math.min(a, b)] and [Math.max(a, b)] *)
Definition min (a b : Q) : Q := if ltb b a then b else a.
Definition max (a b : Q) : Q := if ltb a b then b else a.

(** [x % 1]: the remainder has the sign of the dividend (truncated
    division). *)
Definition trunc (x : Q) : Z := Z.quot (Qnum x) (Zpos (Qden x)).
Definition rem1 (x : Q) : Q := (Z.rem (Qnum x) (Zpos (Qden x)) # Qden x)%Q.

(** [x / y], finite only when [y] is not 0. *)
Definition div (x y : Q) : option Q :=
  if Qeq_bool y 0 then None else Some (x / y)%Q.

End Num.

(** Sequencing of computations that may fail. *)
Definition bind {X Y : Type} (m : option X) (k : X -> option Y) : option Y :=
  match m with
  | Some x => k x
  | None => None
  end.

Notation "x <- m ;; k" := (bind m (fun x => k))
  (at level 61, m at next level, right associativity).

(** ** Data model of [AYReplayer] *)

(** One element of [frames]: the object [{ regs }]. *)
Record Frame : Type := mkFrame { regs : list byte }.

(** [mkVoice()]: [{ osc, gain, mute, volUser }]. *)
Record Voice : Type := mkVoiceRec {
  osc_frequency : Q;
  gain_value : Q;
  mute : bool;
  volUser : Q
}.

(** [mkNoise()]: [{ src, bp, gain, volUser }]. *)
Record NoiseVoice : Type := mkNoiseRec {
  bp_frequency : Q;
  noise_gain_value : Q;
  noise_volUser : Q
}.

(** [this.env]. *)
Record Env : Type := mkEnv {
  periodSec : Q;
  shape : Z;
  phase : Q;
  level : Q;
  lastUpdate : Q
}.

Record AYReplayer : Type := mkReplayer {
  rate : Q;
  frames : list Frame;
  timer : option nat;       (* interval handle, [null] = [None] *)
  play_i : nat;             (* the [let i] captured by the interval callback *)
  A : Voice;
  B : Voice;
  C : Voice;
  Noise : NoiseVoice;
  env : Env
}.

Definition mkVoice : Voice :=
  {| osc_frequency := 440; gain_value := 0; mute := false; volUser := 1 |}.

Definition mkNoise : NoiseVoice :=
  {| bp_frequency := 4000; noise_gain_value := 0; noise_volUser := (15 # 100) |}.

(** [constructor()] *)
Definition newAYReplayer : AYReplayer :=
  {| rate := 50; frames := []; timer := None; play_i := 0%nat;
     A := mkVoice; B := mkVoice; C := mkVoice; Noise := mkNoise;
     env := {| periodSec := (5 # 100); shape := 0; phase := 0; level := 0;
               lastUpdate := 0 |} |}.

(** ** [envelopeLevel] *)

Definition envelopeLevel (phase : Q) (shape : Z) : Q :=
  let C := negb (Z.land shape 8 =? 0) in
  let A := negb (Z.land shape 4 =? 0) in
  let Alt := negb (Z.land shape 2 =? 0) in
  let Hold := negb (Z.land shape 1 =? 0) in
  let p := Num.rem1 phase in
  let lvl :=
    (if negb Alt && negb Hold && A then p
     else if negb Alt && Hold && A then Num.min 1 (p * 2)
     else if Alt && negb Hold then
       (if Num.ltb p (1 # 2) then p * 2 else 1 - (p - (1 # 2)) * 2)
     else 1 - p)%Q in
  Num.max 0 (Num.min 1 lvl).

(** The body of [envelopeLevel] below the line [const p = phase % 1], as a
    function of [p]. *)
Definition levelOfFraction (p : Q) (shape : Z) : Q :=
  let A := negb (Z.land shape 4 =? 0) in
  let Alt := negb (Z.land shape 2 =? 0) in
  let Hold := negb (Z.land shape 1 =? 0) in
  let lvl :=
    (if negb Alt && negb Hold && A then p
     else if negb Alt && Hold && A then Num.min 1 (p * 2)
     else if Alt && negb Hold then
       (if Num.ltb p (1 # 2) then p * 2 else 1 - (p - (1 # 2)) * 2)
     else 1 - p)%Q in
  Num.max 0 (Num.min 1 lvl).

(** The four wave families of [envelopeLevel], by the bits Attack (4),
    Alternate (2) and Hold (1) of the shape: rising ramp; rising ramp to a
    hold; triangle; and, for every other shape, falling ramp.  Each is
    clamped to [0,1]. *)
Definition waveFamilies (phase : Q) (shape : Z) : Prop :=
  let p := Num.rem1 phase in
  let A := negb (Z.land shape 4 =? 0) in
  let Alt := negb (Z.land shape 2 =? 0) in
  let Hold := negb (Z.land shape 1 =? 0) in
  let clamp x := Num.max 0 (Num.min 1 x) in
  (A = true -> Alt = false -> Hold = false ->
     envelopeLevel phase shape = clamp p) /\
  (A = true -> Alt = false -> Hold = true ->
     envelopeLevel phase shape = clamp (Num.min 1 (p * 2)%Q)) /\
  (Alt = true -> Hold = false ->
     envelopeLevel phase shape =
       clamp (if Num.ltb p (1 # 2) then p * 2 else 1 - (p - (1 # 2)) * 2)%Q) /\
  ((A = false /\ Alt = false) \/ (Alt = true /\ Hold = true) ->
     envelopeLevel phase shape = clamp (1 - p)%Q).

(** The shapes that [envelopeLevel] maps by its last branch, the falling
    ramp: those that are neither a rising ramp (Attack without Alternate)
    nor a triangle (Alternate without Hold). *)
Definition fallingRamp (shape : Z) : bool :=
  let A := negb (Z.land shape 4 =? 0) in
  let Alt := negb (Z.land shape 2 =? 0) in
  let Hold := negb (Z.land shape 1 =? 0) in
  negb (negb Alt && negb Hold && A) && negb (negb Alt && Hold && A)
  && negb (Alt && negb Hold).

(** ** [applyRegs] *)

(** [regs[i]] under a bitwise operator. *)
Definition reg (r : list byte) (i : nat) : Z :=
  match nth_error r i with
  | Some b => Z.of_N (Byte.to_N b)
  | None => 0
  end.

Definition clock : Z := 1000000.

(** [((regs[hi] & 0x0F) << 8) | regs[lo]] *)
Definition tonePeriod (r : list byte) (lo hi : nat) : Z :=
  Z.lor (Z.shiftl (Z.land (reg r hi) 15) 8) (reg r lo).

(** [per ? clock / (16 * per) : 0.0001] *)
Definition toneFreq (per : Z) : option Q :=
  if per =? 0 then Some (1 # 10000)%Q
  else Num.div (inject_Z clock) (inject_Z (16 * per)).

(** [((regs[12] << 8) | regs[11]) || 1] *)
Definition envPeriodOf (r : list byte) : Z :=
  let v := Z.lor (Z.shiftl (reg r 12) 8) (reg r 11) in
  if v =? 0 then 1 else v.

(** [envPeriod / clock * 16 * 2] *)
Definition periodSecOf (envPeriod : Z) : Q :=
  (inject_Z envPeriod / inject_Z clock * 16 * 2)%Q.

(** The test of the [if] that re-triggers the envelope. *)
Definition envChanged (e : Env) (envShape : Z) (pSec : Q) : bool :=
  negb (envShape =? shape e)
  || Num.ltb (1 # 1000000) (Qabs (periodSec e - pSec)).

(** The envelope block of [applyRegs] (both branches of the [if]). *)
Definition envStep (e : Env) (envShape : Z) (pSec now : Q) : option Env :=
  if envChanged e envShape pSec then
    Some {| shape := envShape; periodSec := pSec; phase := 0; level := 1;
            lastUpdate := now |}
  else
    let dt := (now - Num.or_else (lastUpdate e) now)%Q in
    adv <- Num.div dt (Num.or_else (periodSec e) (1 # 1000)) ;;
    let ph := (phase e + adv)%Q in
    Some {| periodSec := periodSec e; shape := shape e; phase := ph;
            level := envelopeLevel ph (shape e); lastUpdate := now |}.

(** [((mixer & bit) === 0) && (envX || volX > 0) && !X.mute] *)
Definition pathOn (mixer bit : Z) (envX : bool) (volX : Z) (v : Voice) : bool :=
  (Z.land mixer bit =? 0) && (envX || (0 <? volX)) && negb (mute v).

(** [envX ? this.env.level : (volX / 15)] *)
Definition envGain (envX : bool) (e : Env) (volX : Z) : Q :=
  if envX then level e else (inject_Z volX / 15)%Q.

Definition setVoice (v : Voice) (f g : Q) : Voice :=
  {| osc_frequency := f; gain_value := g; mute := mute v; volUser := volUser v |}.

Definition applyRegs (s : AYReplayer) (r : list byte) (now : Q)
  : option AYReplayer :=
  let perA := tonePeriod r 0 1 in
  let perB := tonePeriod r 2 3 in
  let perC := tonePeriod r 4 5 in
  fA <- toneFreq perA ;;
  fB <- toneFreq perB ;;
  fC <- toneFreq perC ;;
  let noiseFreq := Z.land (reg r 6) 31 in
  let mixer := reg r 7 in
  let volAReg := reg r 8 in
  let volBReg := reg r 9 in
  let volCReg := reg r 10 in
  let envA := negb (Z.land volAReg 16 =? 0) in
  let envB := negb (Z.land volBReg 16 =? 0) in
  let envC := negb (Z.land volCReg 16 =? 0) in
  let volA := Z.land volAReg 15 in
  let volB := Z.land volBReg 15 in
  let volC := Z.land volCReg 15 in
  let envPeriod := envPeriodOf r in
  let envShape := Z.land (reg r 13) 15 in
  let pSec := periodSecOf envPeriod in
  e <- envStep (env s) envShape pSec now ;;
  let toneAOn := pathOn mixer 1 envA volA (A s) in
  let toneBOn := pathOn mixer 2 envB volB (B s) in
  let toneCOn := pathOn mixer 4 envC volC (C s) in
  let envGainA := envGain envA e volA in
  let envGainB := envGain envB e volB in
  let envGainC := envGain envC e volC in
  let noiseOn :=
    pathOn mixer 8 envA volA (A s)
    || pathOn mixer 16 envB volB (B s)
    || pathOn mixer 32 envC volC (C s) in
  let nf := inject_Z (noiseFreq * 200 + 1000) in
  Some
  {| rate := rate s; frames := frames s; timer := timer s; play_i := play_i s;
     A := setVoice (A s) fA (if toneAOn then envGainA * volUser (A s) else 0)%Q;
     B := setVoice (B s) fB (if toneBOn then envGainB * volUser (B s) else 0)%Q;
     C := setVoice (C s) fC (if toneCOn then envGainC * volUser (C s) else 0)%Q;
     Noise := {| bp_frequency := nf;
                 noise_gain_value :=
                   (if noiseOn then noise_volUser (Noise s) else 0)%Q;
                 noise_volUser := noise_volUser (Noise s) |};
     env := e |}.

(** The fields of a volume register [regs[i]] (8, 9, 10), and the gain
    [applyRegs] hands to the tone path of a voice and to the noise path,
    given the envelope after its step. *)
Definition envFlag (r : list byte) (i : nat) : bool :=
  negb (Z.land (reg r i) 16 =? 0).

Definition staticVol (r : list byte) (i : nat) : Z := Z.land (reg r i) 15.

Definition toneGain (r : list byte) (e : Env) (bit : Z) (i : nat) (v : Voice)
  : Q :=
  (if pathOn (reg r 7) bit (envFlag r i) (staticVol r i) v
   then envGain (envFlag r i) e (staticVol r i) * volUser v else 0)%Q.

Definition noiseGain (r : list byte) (s : AYReplayer) : Q :=
  (if pathOn (reg r 7) 8 (envFlag r 8) (staticVol r 8) (A s)
      || pathOn (reg r 7) 16 (envFlag r 9) (staticVol r 9) (B s)
      || pathOn (reg r 7) 32 (envFlag r 10) (staticVol r 10) (C s)
   then noise_volUser (Noise s) else 0)%Q.

(** The ranges the specification asks of what [applyRegs] hands to the
    audio paths, and of the user volumes it multiplies in. *)
Definition inUnit (x : Q) : Prop := (0 <= x /\ x <= 1)%Q.

Definition gainsInUnit (s : AYReplayer) : Prop :=
  inUnit (gain_value (A s)) /\ inUnit (gain_value (B s)) /\
  inUnit (gain_value (C s)) /\ inUnit (noise_gain_value (Noise s)).

Definition freqsPositive (s : AYReplayer) : Prop :=
  (0 < osc_frequency (A s) /\ 0 < osc_frequency (B s) /\
   0 < osc_frequency (C s) /\ 0 < bp_frequency (Noise s))%Q.

Definition volumesInUnit (s : AYReplayer) : Prop :=
  inUnit (volUser (A s)) /\ inUnit (volUser (B s)) /\
  inUnit (volUser (C s)) /\ inUnit (noise_volUser (Noise s)).

(** The three tone channels, the voice of each and the two registers that
    hold its period (low byte, then the byte whose low nibble is the high
    part). *)
Inductive Channel : Type := ChA | ChB | ChC.

Definition voice (ch : Channel) (s : AYReplayer) : Voice :=
  match ch with
  | ChA => A s
  | ChB => B s
  | ChC => C s
  end.

Definition periodLo (ch : Channel) : nat :=
  match ch with
  | ChA => 0
  | ChB => 2
  | ChC => 4
  end.

Definition periodHi (ch : Channel) : nat := S (periodLo ch).

(** The tone bit of a channel in the mixer, and its volume register. *)
Definition toneBit (ch : Channel) : Z :=
  match ch with
  | ChA => 1
  | ChB => 2
  | ChC => 4
  end.

Definition volReg (ch : Channel) : nat :=
  match ch with
  | ChA => 8
  | ChB => 9
  | ChC => 10
  end.

(** ** User controls and transport of [AYReplayer] *)

(** The argument object of [setUserControls]; a missing property is [None].
    A volume is given by the number it denotes: [parseFloat] returns a
    Number argument as it is, and the page passes the decimal text of a
    slider's value. *)
Record UserControls : Type := mkControls {
  muteA : option bool;
  muteB : option bool;
  muteC : option bool;
  volA : option Q;
  volB : option Q;
  volC : option Q;
  volN : option Q
}.

(** [!!m] *)
Definition toBool (m : option bool) : bool :=
  match m with
  | Some b => b
  | None => false
  end.

(** [parseFloat(v ?? cur)] *)
Definition parseFloatOr (v : option Q) (cur : Q) : Q :=
  match v with
  | Some q => q
  | None => cur
  end.

Definition setUserControls (s : AYReplayer) (u : UserControls) : AYReplayer :=
  let ctl (v : Voice) (m : option bool) (vol : option Q) : Voice :=
    {| osc_frequency := osc_frequency v; gain_value := gain_value v;
       mute := toBool m; volUser := parseFloatOr vol (volUser v) |} in
  {| rate := rate s; frames := frames s; timer := timer s; play_i := play_i s;
     A := ctl (A s) (muteA u) (volA u);
     B := ctl (B s) (muteB u) (volB u);
     C := ctl (C s) (muteC u) (volC u);
     Noise := {| bp_frequency := bp_frequency (Noise s);
                 noise_gain_value := noise_gain_value (Noise s);
                 noise_volUser := parseFloatOr (volN u) (noise_volUser (Noise s)) |};
     env := env s |}.

Definition withTransport (s : AYReplayer) (fs : list Frame) (r : Q)
  (t : option nat) (i : nat) : AYReplayer :=
  {| rate := r; frames := fs; timer := t; play_i := i;
     A := A s; B := B s; C := C s; Noise := Noise s; env := env s |}.

(** [load({ frames, rate = 50 })] *)
Definition load (s : AYReplayer) (fs : option (list Frame)) (r : option Q)
  : AYReplayer :=
  withTransport s
    (match fs with Some l => l | None => [] end)
    (match r with Some q => q | None => 50%Q end)
    (timer s) (play_i s).

(** The handle [setInterval] returns (a non-zero integer). *)
Definition intervalHandle : nat := 1%nat.

Definition isLive (t : option nat) : bool :=
  match t with
  | Some _ => true
  | None => false
  end.

(** [play()] *)
Definition play (s : AYReplayer) : AYReplayer :=
  if isLive (timer s) || (length (frames s) =? 0)%nat then s
  else withTransport s (frames s) (rate s) (Some intervalHandle) 0%nat.

(** [stop()] *)
Definition stop (s : AYReplayer) : AYReplayer :=
  if isLive (timer s)
  then withTransport s (frames s) (rate s) None (play_i s)
  else s.

(** The callback [play()] hands to [setInterval]. *)
Definition playTick (s : AYReplayer) (now : Q) : option AYReplayer :=
  if (length (frames s) <=? play_i s)%nat then Some (stop s)
  else
    match nth_error (frames s) (play_i s) with
    | Some f =>
        applyRegs (withTransport s (frames s) (rate s) (timer s) (S (play_i s)))
                  (regs f) now
    | None => None
    end.

(** ** The lookahead scheduler of the page script *)

(** What the scheduler does to the replayer and to its own timer, in the
    order it does it. *)
Inductive Event : Type :=
| EvApply (i : nat) (r : list byte)   (* [replayer.applyRegs(frames[i].regs)] *)
| EvStop.                             (* [clearInterval(lookaheadId)] *)

Record Page : Type := mkPage {
  replayer : AYReplayer;
  lookaheadId : option nat;
  frameIdx : nat;
  frameRate : Q;
  (* variables captured by the interval callback of [startFrames] *)
  cb_frames : list Frame;
  cb_spf : Q;
  nextTime : Q;
  (* instrumentation *)
  reads : nat;             (* readings of [ctx.currentTime] taken so far *)
  trace : list Event
}.

(** [const ahead = 0.08] *)
Definition ahead : Q := (8 # 100)%Q.

Definition stopFrames (p : Page) : Page :=
  if isLive (lookaheadId p) then
    {| replayer := replayer p; lookaheadId := None; frameIdx := frameIdx p;
       frameRate := frameRate p; cb_frames := cb_frames p; cb_spf := cb_spf p;
       nextTime := nextTime p; reads := reads p;
       trace := trace p ++ [EvStop] |}
  else p.

Section Scheduler.

(** Successive readings of [replayer.ctx.currentTime]. *)
Variable currentTime : nat -> Q.

Definition tick (p : Page) : Page :=
  {| replayer := replayer p; lookaheadId := lookaheadId p;
     frameIdx := frameIdx p; frameRate := frameRate p;
     cb_frames := cb_frames p; cb_spf := cb_spf p; nextTime := nextTime p;
     reads := S (reads p); trace := trace p |}.

(** [startFrames(frames, rate = 50)] up to the call of [setInterval]. *)
Definition startFrames (p : Page) (fs : list Frame) (r : option Q)
  : option Page :=
  let p := stopFrames p in
  let rate := match r with Some q => q | None => 50%Q end in
  spf <- Num.div 1 rate ;;
  let t := currentTime (reads p) in
  Some {| replayer := replayer p; lookaheadId := Some intervalHandle;
          frameIdx := 0; frameRate := rate; cb_frames := fs; cb_spf := spf;
          nextTime := t; reads := S (reads p); trace := trace p |}.

(** The page after one turn of the loop body: frame [f] applied, leaving
    the replayer [rp]. *)
Definition applied (p : Page) (f : Frame) (rp : AYReplayer) : Page :=
  {| replayer := rp; lookaheadId := lookaheadId p;
     frameIdx := S (frameIdx p); frameRate := frameRate p;
     cb_frames := cb_frames p; cb_spf := cb_spf p;
     nextTime := (nextTime p + cb_spf p)%Q;
     reads := S (reads p);
     trace := trace p ++ [EvApply (frameIdx p) (regs f)] |}.

(** The [while] loop of the interval callback.  [None] when the fuel runs
    out or [applyRegs] fails. *)
Fixpoint lookahead (fuel : nat) (p : Page) : option Page :=
  match fuel with
  | O => None
  | S fuel' =>
      let t := currentTime (reads p) in
      let p := tick p in
      if Num.ltb (nextTime p) (t + ahead) then
        if (length (cb_frames p) <=? frameIdx p)%nat then Some (stopFrames p)
        else
          match nth_error (cb_frames p) (frameIdx p) with
          | None => None
          | Some f =>
              let now := currentTime (reads p) in
              rp <- applyRegs (replayer p) (regs f) now ;;
              lookahead fuel' (applied p f rp)
          end
      else Some p
  end.

(** One wake-up of the interval: the loop makes at most one turn per
    remaining frame and one more. *)
Definition wake (p : Page) : option Page :=
  lookahead (S (length (cb_frames p) - frameIdx p)) p.

(** [k] periods of the interval timer: the callback fires as long as the
    interval has not been cleared. *)
Fixpoint run (k : nat) (p : Page) : option Page :=
  match k with
  | O => Some p
  | S k' =>
      if isLive (lookaheadId p) then p' <- wake p ;; run k' p'
      else Some p
  end.

End Scheduler.

(** The events of applying [fs] in order, the first one at index [i]. *)
Fixpoint applyEvents (i : nat) (fs : list Frame) : list Event :=
  match fs with
  | [] => []
  | f :: fs' => EvApply i (regs f) :: applyEvents (S i) fs'
  end.

(** The scheduler between [startFrames] and the end of the track: started
    on the track [fs] with tick period [spf] at clock value [t0], after the
    trace [tr0]. *)
Record Playing (fs : list Frame) (spf t0 : Q) (tr0 : list Event) (p : Page)
  : Prop := mkPlaying {
  pl_live : isLive (lookaheadId p) = true;
  pl_frames : cb_frames p = fs;
  pl_spf : cb_spf p = spf;
  pl_idx : (frameIdx p <= length fs)%nat;
  pl_next : (nextTime p == t0 + inject_Z (Z.of_nat (frameIdx p)) * spf)%Q;
  pl_trace : trace p = tr0 ++ applyEvents 0 (firstn (frameIdx p) fs)
}.

(** The scheduler once the track [fs] has been played out. *)
Record Finished (fs : list Frame) (tr0 : list Event) (p : Page) : Prop :=
  mkFinished {
  fin_stopped : lookaheadId p = None;
  fin_idx : frameIdx p = length fs;
  fin_trace : trace p = tr0 ++ applyEvents 0 fs ++ [EvStop]
}.

Arguments pl_live {fs spf t0 tr0 p} _.
Arguments pl_frames {fs spf t0 tr0 p} _.
Arguments fin_stopped {fs tr0 p} _.
Arguments fin_idx {fs tr0 p} _.
Arguments fin_trace {fs tr0 p} _.

(** ** The YM loader: [parseYM] and the load button *)

(** ToInt32: the result range of [<<] and [|]. *)
Definition toInt32 (z : Z) : Z := (z + 2 ^ 31) mod 2 ^ 32 - 2 ^ 31.

(** [x << n] *)
Definition shl32 (x n : Z) : Z := toInt32 (Z.shiftl x n).

(** [String.fromCharCode(bytes[i])]; [undefined] gives the code unit 0. *)
Definition charAt (bytes : list byte) (i : nat) : byte :=
  nth i bytes x00.

(** [bytes.slice(start, end)] for [0 <= start <= end]. *)
Definition slice (bytes : list byte) (start stop : nat) : list byte :=
  firstn (stop - start) (skipn start bytes).

Record Meta : Type := mkMeta {
  version : string;
  meta_frames : Z;
  meta_rate : Q
}.

Record ParsedYM : Type := mkParsed {
  meta : Meta;
  parsed_frames : list Frame
}.

Inductive LoadError : Type :=
| YMVersionNonSupportee (tag : string).   (* the message names the tag *)

Definition supportedTags : list string := ["YM5!"; "YM6!"; "YM3!"]%string.

Definition includes (l : list string) (t : string) : bool :=
  existsb (String.eqb t) l.

Definition regsPerFrame : Z := 16.

(** [String.fromCharCode(bytes[0], bytes[1], bytes[2], bytes[3])] *)
Definition tagOf (bytes : list byte) : string :=
  string_of_list_byte
    [charAt bytes 0; charAt bytes 1; charAt bytes 2; charAt bytes 3].

Definition parseYM (bytes : list byte) : LoadError + ParsedYM :=
  let tag := tagOf bytes in
  if negb (includes supportedTags tag) then inl (YMVersionNonSupportee tag)
  else
    let frames :=
      Z.lor (Z.lor (Z.lor (shl32 (reg bytes 4) 24) (shl32 (reg bytes 5) 16))
                   (shl32 (reg bytes 6) 8))
            (reg bytes 7) in
    let offset :=
      if Z.of_nat (length bytes) <? 64 + frames * regsPerFrame then 16 else 64 in
    let out :=
      map (fun f : nat =>
             let start := Z.to_nat (offset + Z.of_nat f * regsPerFrame) in
             mkFrame (slice bytes start (start + Z.to_nat regsPerFrame)))
          (seq 0 (Z.to_nat frames)) in
    inr {| meta := {| version := tag; meta_frames := frames; meta_rate := 50 |};
           parsed_frames := out |}.

(** [x || 50] on the rate of the parsed header. *)
Definition rateOr50 (q : Q) : Q := Num.or_else q 50.

(** The mute flag and the volume [setUserControls] is given for a channel. *)
Definition muteArg (ch : Channel) (u : UserControls) : option bool :=
  match ch with
  | ChA => muteA u
  | ChB => muteB u
  | ChC => muteC u
  end.

Definition volArg (ch : Channel) (u : UserControls) : option Q :=
  match ch with
  | ChA => volA u
  | ChB => volB u
  | ChC => volC u
  end.

(** ** Further code of the sources *)

(** [k] periods of the interval timer set by [play()]: the callback fires as
    long as [this.timer] is live; the firing number [t] reads the clock
    value [clk t]. *)
Fixpoint playRun (clk : nat -> Q) (k t : nat) (s : AYReplayer)
  : option AYReplayer :=
  match k with
  | O => Some s
  | S k' =>
      if isLive (timer s) then s' <- playTick s (clk t) ;; playRun clk k' (S t) s'
      else Some s
  end.

(** [applyRegs] on the frames of a list in order, the first one at the clock
    value [clk t]. *)
Fixpoint applyFrames (clk : nat -> Q) (t : nat) (fs : list Frame)
  (s : AYReplayer) : option AYReplayer :=
  match fs with
  | [] => Some s
  | f :: fs' => s' <- applyRegs s (regs f) (clk t) ;; applyFrames clk (S t) fs' s'
  end.

(** The noise bit of a channel in the mixer. *)
Definition noiseBit (ch : Channel) : Z :=
  match ch with
  | ChA => 8
  | ChB => 16
  | ChC => 32
  end.

(** The tests of [toneXOn] and of the disjuncts of [noiseOn] for a channel. *)
Definition toneOn (r : list byte) (ch : Channel) (s : AYReplayer) : bool :=
  pathOn (reg r 7) (toneBit ch) (envFlag r (volReg ch)) (staticVol r (volReg ch))
         (voice ch s).

Definition noisePathOn (r : list byte) (ch : Channel) (s : AYReplayer) : bool :=
  pathOn (reg r 7) (noiseBit ch) (envFlag r (volReg ch)) (staticVol r (volReg ch))
         (voice ch s).

(** The handler of the play button that is in force (the later assignment
    of the page script): [setUserControls] with the state of the controls,
    then [play()]. *)
Definition onPlayClick (s : AYReplayer) (u : UserControls) : AYReplayer :=
  play (setUserControls s u).

(** The position of a channel's tone bit in the mixer register; its noise
    bit is three positions higher. *)
Definition chanIndex (ch : Channel) : Z :=
  match ch with
  | ChA => 0
  | ChB => 1
  | ChC => 2
  end.

(** [setUserControls({ muteA, muteB, muteC, volA, volB, volC, volN })] with
    every property given. *)
Definition controls (mA mB mC : bool) (vA vB vC vN : Q) : UserControls :=
  {| muteA := Some mA; muteB := Some mB; muteC := Some mC;
     volA := Some vA; volB := Some vB; volC := Some vC; volN := Some vN |}.

(** The level a volume register asks for is on when the register has bit 4
    (envelope) set or a non-zero low nibble. *)
Definition levelAsked (v : Z) : bool :=
  Z.testbit v 4 || negb (v mod 16 =? 0).

(** What holds of the scheduler at any time after [startFrames] was called
    on the track [fs] with tick period [spf] at clock value [t0], with the
    trace [tr0] behind it. *)
Record Progress (fs : list Frame) (spf t0 : Q) (tr0 : list Event) (p : Page)
  : Prop := mkProgress {
  pg_frames : cb_frames p = fs;
  pg_spf : cb_spf p = spf;
  pg_idx : (frameIdx p <= length fs)%nat;
  pg_next : (nextTime p == t0 + inject_Z (Z.of_nat (frameIdx p)) * spf)%Q;
  pg_trace : trace p = tr0 ++ applyEvents 0 (firstn (frameIdx p) fs)
                           ++ (if isLive (lookaheadId p) then [] else [EvStop]);
  pg_done : isLive (lookaheadId p) = false -> frameIdx p = length fs
}.

Arguments pg_frames {fs spf t0 tr0 p} _.

(** *** [loadAndParse] *)

(** [a] is a prefix of [b]. *)
Fixpoint isPrefix (a b : list Ascii.ascii) : bool :=
  match a, b with
  | [], _ => true
  | _ :: _, [] => false
  | x :: a', y :: b' => Ascii.eqb x y && isPrefix a' b'
  end.

(** [s.endsWith(suffix)] *)
Definition endsWith (s suffix : string) : bool :=
  isPrefix (rev (list_ascii_of_string suffix)) (rev (list_ascii_of_string s)).

(** ASCII letters to lower case, as the flag [i] of the pattern compares
    them. *)
Definition lowerAscii (c : Ascii.ascii) : Ascii.ascii :=
  let n := Ascii.nat_of_ascii c in
  if ((65 <=? n) && (n <=? 90))%nat then Ascii.ascii_of_nat (n + 32) else c.

Definition isDigit (c : Ascii.ascii) : bool :=
  let n := Ascii.nat_of_ascii c in ((48 <=? n) && (n <=? 57))%nat.

(** [/\.ym\d?$/i.test(name)]: the name ends with [.ym], or with [.ym] and
    one digit, in either case of the letters. *)
Definition isYmName (name : string) : bool :=
  let l := map lowerAscii (rev (list_ascii_of_string name)) in
  let ym := rev (list_ascii_of_string ".ym") in
  isPrefix ym l
  || match l with
     | d :: l' => isDigit d && isPrefix ym l'
     | [] => false
     end.

(** What [loadAndParse] throws. *)
Inductive ParseFailure : Type :=
| ArchiveSansYM             (* no [.ym] entry in the archive *)
| AYDetecte                 (* an AY file with the header ZXAYEMUL *)
| AYNonReconnu              (* an AY file without that header *)
| FormatNonSupporte         (* none of the four endings *)
| YMRejete (e : LoadError)  (* thrown by [parseYM] *)
| LHAFailure.               (* thrown by the LHA library *)

Definition liftYM (r : LoadError + ParsedYM) : ParseFailure + ParsedYM :=
  match r with
  | inl e => inl (YMRejete e)
  | inr y => inr y
  end.

Section Loader.

(** The LHA library of the page: the entries of an archive and the content
    of an entry; [None] when the library throws. *)
Variable Entry : Type.
Variable entryName : Entry -> string.
Variable LHA_read : list byte -> option (list Entry).
Variable LHA_unpack : Entry -> option (list byte).

(** [loadAndParse(file)] on [file.name.toLowerCase()] and the bytes of the
    file. *)
Definition loadAndParse (name : string) (bytes : list byte)
  : ParseFailure + ParsedYM :=
  if endsWith name ".lzh" || endsWith name ".lha" then
    match LHA_read bytes with
    | None => inl LHAFailure
    | Some entries =>
        match find (fun e => isYmName (entryName e)) entries with
        | None => inl ArchiveSansYM
        | Some ymEntry =>
            match LHA_unpack ymEntry with
            | None => inl LHAFailure
            | Some ymBytes => liftYM (parseYM ymBytes)
            end
        end
    end
  else if endsWith name ".ym" then liftYM (parseYM bytes)
  else if endsWith name ".ay" then
    if String.eqb (string_of_list_byte (firstn 8 bytes)) "ZXAYEMUL"
    then inl AYDetecte else inl AYNonReconnu
  else inl FormatNonSupporte.

(** The handler of the load button on a file: the replayer afterwards and
    what the alert reports, if anything. *)
Definition onLoadFile (s : AYReplayer) (name : string) (bytes : list byte)
  : AYReplayer * option ParseFailure :=
  match loadAndParse name bytes with
  | inl e => (s, Some e)
  | inr y =>
      (load s (Some (parsed_frames y)) (Some (rateOr50 (meta_rate (meta y)))),
       None)
  end.

End Loader.

(** *** [Visualizer] *)

(** [setFFTSize(n)]: the size [Math.max(32, Math.min(32768, n|0))] it hands
    to the analyser, which is also the length of [timeData]. *)
Definition fftSizeOf (n : Q) : Z :=
  Z.max 32 (Z.min 32768 (toInt32 (Num.trunc n))).

(** The oscilloscope of [_draw]: the point of the sample number [i], of
    value [b], of [len] samples on a canvas of [W] by [H]:
    [x = (i / (len - 1)) * W], [y = (b / 255) * H]. *)
Definition oscX (i len : nat) (W : Q) : option Q :=
  q <- Num.div (inject_Z (Z.of_nat i)) (inject_Z (Z.of_nat len - 1)) ;;
  Some (q * W)%Q.

Definition oscY (b : byte) (H : Q) : Q :=
  (inject_Z (Z.of_N (Byte.to_N b)) / 255 * H)%Q.

(** The spectrogram of [_draw]: the row and the hue of the bin number [i],
    of value [b], of [len] bins on a canvas [SH] high:
    [y = SH - 1 - Math.floor((i / len) * SH)],
    [hue = Math.floor(255 - (b / 255) * 255)]. *)
Definition specRow (i len : nat) (SH : Z) : option Z :=
  q <- Num.div (inject_Z (Z.of_nat i)) (inject_Z (Z.of_nat len)) ;;
  Some (SH - 1 - Qfloor (q * inject_Z SH)).

Definition specHue (b : byte) : Z :=
  Qfloor (255 - inject_Z (Z.of_N (Byte.to_N b)) / 255 * 255).

(** ** Sample inputs *)

(** A frame whose mixer (register 7 = 0x3E) opens tone A only, with the
    static volume of channel A at 15 (register 8 = 0x0F). *)
Definition frameToneA : list byte :=
  [x00; x00; x00; x00; x00; x00; x00; x3e; x0f; x00; x00; x00; x00; x00].

(** Fourteen zero registers. *)
Definition frameZero : list byte :=
  [x00; x00; x00; x00; x00; x00; x00; x00; x00; x00; x00; x00; x00; x00].

(** [setUserControls({ volA: v })] *)
Definition onlyVolA (v : Q) : UserControls :=
  {| muteA := None; muteB := None; muteC := None;
     volA := Some v; volB := None; volC := None; volN := None |}.

(** The replayer once a first frame of zero registers has set the envelope
    (period register 0 read as 1, shape 0) at clock value 1. *)
Definition settled : AYReplayer :=
  {| rate := 50; frames := []; timer := None; play_i := 0%nat;
     A := mkVoice; B := mkVoice; C := mkVoice; Noise := mkNoise;
     env := {| periodSec := (32 # 1000000); shape := 0; phase := 0; level := 1;
               lastUpdate := 1 |} |}.

(** Fourteen registers, all zero but the envelope shape (register 13),
    which is 2: Alternate without Hold, the triangle. *)
Definition frameTriangle : list byte :=
  [x00; x00; x00; x00; x00; x00; x00; x00; x00; x00; x00; x00; x00; x02].

(** The replayer a fresh one becomes when [applyRegs] is called on
    [frameZero] at clock value 1. *)
Definition afterFrameZero : AYReplayer :=
  Eval vm_compute in
    match applyRegs newAYReplayer frameZero 1 with
    | Some s => s
    | None => newAYReplayer
    end.

(** A file of eight bytes: the tag [YM5!], a frame count of 2, and no
    register data. *)
Definition truncatedYM : list byte :=
  [x59; x4d; x35; x21; x00; x00; x00; x02].

(** A file that starts with the four bytes [YM9!]. *)
Definition wrongTagYM : list byte :=
  [x59; x4d; x39; x21; x00; x00; x00; x01].

(** The replayer with a track of one frame loaded. *)
Definition loaded : AYReplayer :=
  load newAYReplayer (Some [mkFrame frameToneA]) (Some 50%Q).

(** The page script before any click. *)
Definition newPage : Page :=
  {| replayer := newAYReplayer; lookaheadId := None; frameIdx := 0;
     frameRate := 50; cb_frames := []; cb_spf := 0; nextTime := 0;
     reads := 0; trace := [] |}.

(** A clock that moves on by 25 ms from one reading to the next. *)
Definition sampleClock (k : nat) : Q := (Z.of_nat k * 25 # 1000)%Q.

(** A track of five frames. *)
Definition fiveFrames : list Frame := repeat (mkFrame frameToneA) 5.

(** * Properties *)

(** ** Number primitives *)

Local Open Scope Q_scope.

Lemma ltb_true (x y : Q) : Num.ltb x y = true <-> x < y.
Proof.
  unfold Num.ltb. rewrite negb_true_iff.
  destruct (Qle_bool y x) eqn:E.
  - apply Qle_bool_iff in E. split; [discriminate | lra].
  - split; [intros _ | reflexivity].
    destruct (Qlt_le_dec x y) as [H | H]; [exact H |].
    apply Qle_bool_iff in H. congruence.
Qed.

Lemma ltb_false (x y : Q) : Num.ltb x y = false <-> y <= x.
Proof.
  destruct (Num.ltb x y) eqn:E.
  - apply ltb_true in E. split; [discriminate | lra].
  - split; [intros _ | reflexivity].
    destruct (Qlt_le_dec x y) as [H | H]; [| exact H].
    apply ltb_true in H. congruence.
Qed.

Lemma truthy_true (x : Q) : Num.truthy x = true <-> ~ x == 0.
Proof.
  unfold Num.truthy. rewrite negb_true_iff.
  destruct (Qeq_bool x 0) eqn:E.
  - apply Qeq_bool_iff in E. split; [discriminate | tauto].
  - apply Qeq_bool_neq in E. tauto.
Qed.

Lemma truthy_false (x : Q) : Num.truthy x = false <-> x == 0.
Proof.
  unfold Num.truthy. rewrite negb_false_iff. apply Qeq_bool_iff.
Qed.

(** Case analysis on every comparison of the goal, innermost first, leaving
    the outcome as an order fact. *)
Ltac no_cmp t :=
  lazymatch t with
  | context [Num.ltb _ _] => fail
  | _ => idtac
  end.

Ltac split_cmp :=
  repeat match goal with
    | |- context [Num.ltb ?a ?b] =>
        no_cmp a; no_cmp b;
        let E := fresh "E" in
        destruct (Num.ltb a b) eqn:E;
        [apply ltb_true in E | apply ltb_false in E]
    | |- context [Num.truthy ?a] =>
        let E := fresh "E" in
        destruct (Num.truthy a) eqn:E;
        [apply truthy_true in E | apply truthy_false in E]
    end.

Lemma pos_nonzero (x : Q) : 0 < x -> ~ x == 0.
Proof. intros H E. rewrite E in H. discriminate. Qed.

Lemma or_else_nonzero (x d : Q) : ~ d == 0 -> ~ Num.or_else x d == 0.
Proof. intros Hd. unfold Num.or_else. split_cmp; assumption. Qed.

Lemma or_else_keep (x d : Q) : ~ x == 0 -> Num.or_else x d = x.
Proof.
  intros Hx. unfold Num.or_else.
  destruct (Num.truthy x) eqn:E; [reflexivity |].
  apply truthy_false in E. contradiction.
Qed.

Lemma div_some (x y : Q) : ~ y == 0 -> Num.div x y = Some (x / y).
Proof.
  intros Hy. unfold Num.div.
  destruct (Qeq_bool y 0) eqn:E; [| reflexivity].
  apply Qeq_bool_iff in E. contradiction.
Qed.

Lemma clamp_unit (x : Q) : 0 <= Num.max 0 (Num.min 1 x) <= 1.
Proof. unfold Num.max, Num.min. split_cmp; lra. Qed.

(** [x % 1] removes the integer part, towards zero. *)
Lemma rem1_trunc (x : Q) : x == inject_Z (Num.trunc x) + Num.rem1 x.
Proof.
  destruct x as [n d]. unfold Num.trunc, Num.rem1, Qeq, Qplus, inject_Z. simpl.
  pose proof (Z.quot_rem' n (Z.pos d)) as H.
  rewrite H at 1. ring.
Qed.

Lemma rem1_lt_1 (x : Q) : Qabs (Num.rem1 x) < 1.
Proof.
  destruct x as [n d]. unfold Num.rem1. simpl.
  unfold Qabs, Qlt. simpl.
  assert (Hd : Z.pos d <> 0%Z) by discriminate.
  pose proof (Z.rem_bound_abs n (Z.pos d) Hd) as H.
  rewrite Z.mul_1_r. simpl in H. lia.
Qed.

Lemma rem1_sign_nonneg (x : Q) : 0 <= x -> 0 <= Num.rem1 x.
Proof.
  destruct x as [n d]. unfold Num.rem1, Qle. simpl. intros H.
  rewrite Z.mul_1_r in *.
  apply Z.rem_nonneg; [discriminate | lia].
Qed.

Lemma rem1_sign_nonpos (x : Q) : x <= 0 -> Num.rem1 x <= 0.
Proof.
  destruct x as [n d]. unfold Num.rem1, Qle. simpl. intros H.
  rewrite Z.mul_1_r in *.
  apply Z.rem_nonpos; [discriminate | lia].
Qed.

Lemma rem1_idem (x : Q) : Num.rem1 (Num.rem1 x) = Num.rem1 x.
Proof.
  destruct x as [n d]. unfold Num.rem1. simpl.
  f_equal. apply Z.rem_small_iff; [discriminate |].
  apply Z.rem_bound_abs. discriminate.
Qed.

(** ** [envelopeLevel] *)

Lemma envelopeLevel_fraction (phase : Q) (shape : Z) :
  envelopeLevel phase shape = levelOfFraction (Num.rem1 phase) shape.
Proof. reflexivity. Qed.

Lemma envelopeLevel_unit (phase : Q) (shape : Z) :
  0 <= envelopeLevel phase shape <= 1.
Proof. unfold envelopeLevel. apply clamp_unit. Qed.

Lemma envelopeLevel_families (phase : Q) (shape : Z) :
  waveFamilies phase shape.
Proof.
  unfold waveFamilies. cbv zeta. unfold envelopeLevel.
  destruct (negb (Z.land shape 4 =? 0)%Z), (negb (Z.land shape 2 =? 0)%Z),
    (negb (Z.land shape 1 =? 0)%Z); simpl;
    repeat split; intros; try discriminate; try reflexivity;
    intuition discriminate.
Qed.

(** The level is 2-Lipschitz in the reduced phase. *)
Lemma levelOfFraction_lipschitz (p q : Q) (shape : Z) :
  Qabs (levelOfFraction p shape - levelOfFraction q shape) <= 2 * Qabs (p - q).
Proof.
  pose proof (Qle_Qabs (p - q)) as Hpq.
  pose proof (Qle_Qabs (- (p - q))) as Hqp. rewrite Qabs_opp in Hqp.
  apply Qabs_Qle_condition.
  remember (Qabs (p - q)) as d eqn:Hd. clear Hd.
  unfold levelOfFraction, Num.max, Num.min.
  destruct (negb (Z.land shape 4 =? 0)%Z), (negb (Z.land shape 2 =? 0)%Z),
    (negb (Z.land shape 1 =? 0)%Z); cbn [negb andb];
    split_cmp; split; lra.
Qed.

(** C8. For every phase (negative, or greater than 1) and every shape code,
    [envelopeLevel] depends on the phase only through [phase % 1], which is
    the phase less its integer part, of absolute value below 1 and of the
    sign of the phase; its result lies in [0,1]; and so does the final
    clamp [max(0, min(1, lvl))] of any intermediate value [lvl]. *)
Theorem envelopeLevel_mod1_unit (phase : Q) (shape : Z) :
  envelopeLevel phase shape = envelopeLevel (Num.rem1 phase) shape /\
  phase == inject_Z (Num.trunc phase) + Num.rem1 phase /\
  Qabs (Num.rem1 phase) < 1 /\
  (0 <= phase -> 0 <= Num.rem1 phase) /\
  (phase <= 0 -> Num.rem1 phase <= 0) /\
  0 <= envelopeLevel phase shape <= 1 /\
  (forall lvl, 0 <= Num.max 0 (Num.min 1 lvl) <= 1).
Proof.
  split; [| split; [| split; [| split; [| split; [| split]]]]].
  - rewrite !envelopeLevel_fraction, rem1_idem. reflexivity.
  - apply rem1_trunc.
  - apply rem1_lt_1.
  - apply rem1_sign_nonneg.
  - apply rem1_sign_nonpos.
  - apply envelopeLevel_unit.
  - apply clamp_unit.
Qed.

Lemma envelopeLevel_mod1_unit_witness :
  envelopeLevel (7 # 2) 4 = envelopeLevel (1 # 2) 4 /\
  0 <= Num.rem1 (7 # 2) /\ Num.rem1 (-7 # 2) <= 0.
Proof.
  destruct (envelopeLevel_mod1_unit (7 # 2) 4) as (Hmod & _ & _ & Hpos & _).
  destruct (envelopeLevel_mod1_unit (-7 # 2) 4) as (_ & _ & _ & _ & Hneg & _).
  split; [exact Hmod |].
  split; [apply Hpos | apply Hneg]; discriminate.
Defined.

(** The level at a quarter of a period, for one shape of each family. *)
Example envelopeLevel_quarter :
  map (fun sh => Qred (envelopeLevel (5 # 4) sh)) [4; 5; 2; 0]%Z
    = [(1 # 4); (1 # 2); (1 # 2); (3 # 4)].
Proof. reflexivity. Qed.

(** ** Register fields *)

Local Open Scope Z_scope.

Lemma reg_range (r : list byte) (i : nat) : 0 <= reg r i < 256.
Proof.
  unfold reg. destruct (nth_error r i) as [b |]; [| lia].
  pose proof (Byte.to_N_bounded b). lia.
Qed.

(** Packing a field above [n] low bits is an addition. *)
Lemma lor_shiftl_add (a lo n : Z) :
  0 <= n -> 0 <= lo < 2 ^ n -> Z.lor (Z.shiftl a n) lo = a * 2 ^ n + lo.
Proof.
  intros Hn Hlo.
  rewrite Z.shiftl_mul_pow2 by assumption.
  rewrite <- Z.add_lor_land.
  replace (Z.land (a * 2 ^ n) lo) with 0; [lia |].
  symmetry. apply Z.bits_inj'. intros m Hm.
  rewrite Z.land_spec, Z.bits_0.
  destruct (Z.lt_ge_cases m n) as [Hlt | Hge].
  - rewrite Z.mul_pow2_bits_low by assumption. reflexivity.
  - rewrite <- (Z.mod_small lo (2 ^ n)) by assumption.
    rewrite Z.mod_pow2_bits_high by lia. apply andb_false_r.
Qed.

Lemma land_15 (x : Z) : Z.land x 15 = x mod 16.
Proof. change 15 with (Z.ones 4). rewrite Z.land_ones by lia. reflexivity. Qed.

Lemma land_31 (x : Z) : Z.land x 31 = x mod 32.
Proof. change 31 with (Z.ones 5). rewrite Z.land_ones by lia. reflexivity. Qed.

Lemma tonePeriod_value (r : list byte) (lo hi : nat) :
  tonePeriod r lo hi = (reg r hi mod 16) * 256 + reg r lo.
Proof.
  unfold tonePeriod. rewrite land_15.
  rewrite lor_shiftl_add; [reflexivity | lia |].
  pose proof (reg_range r lo). simpl. lia.
Qed.

Lemma tonePeriod_range (r : list byte) (lo hi : nat) :
  0 <= tonePeriod r lo hi < 4096.
Proof.
  rewrite tonePeriod_value.
  pose proof (reg_range r lo). pose proof (Z.mod_pos_bound (reg r hi) 16).
  lia.
Qed.

Lemma envPeriodOf_value (r : list byte) :
  envPeriodOf r =
    if reg r 12 * 256 + reg r 11 =? 0 then 1 else reg r 12 * 256 + reg r 11.
Proof.
  unfold envPeriodOf.
  rewrite lor_shiftl_add; [reflexivity | lia |].
  pose proof (reg_range r 11). simpl. lia.
Qed.

Lemma envPeriodOf_range (r : list byte) : 1 <= envPeriodOf r <= 65535.
Proof.
  rewrite envPeriodOf_value.
  pose proof (reg_range r 11). pose proof (reg_range r 12).
  destruct (reg r 12 * 256 + reg r 11 =? 0) eqn:E; [lia |].
  apply Z.eqb_neq in E. lia.
Qed.

Local Open Scope Q_scope.

Lemma inject_Z_pos (z : Z) : (0 < z)%Z -> 0 < inject_Z z.
Proof. intros H. unfold Qlt, inject_Z. simpl. lia. Qed.

Lemma periodSecOf_value (n : Z) : periodSecOf n == inject_Z n * (32 # 1000000).
Proof. unfold periodSecOf, clock. field. Qed.

Lemma periodSecOf_lower (r : list byte) :
  (32 # 1000000) <= periodSecOf (envPeriodOf r).
Proof.
  rewrite periodSecOf_value.
  pose proof (envPeriodOf_range r) as [H _].
  assert (1 <= inject_Z (envPeriodOf r)).
  { unfold Qle, inject_Z. simpl. lia. }
  lra.
Qed.

(** ** The tone frequency *)

Lemma toneFreq_value (per : Z) :
  (0 <= per)%Z ->
  exists f, toneFreq per = Some f /\ 0 < f /\
    (per = 0%Z -> f = (1 # 10000)) /\
    (per <> 0%Z -> f = inject_Z clock / inject_Z (16 * per)).
Proof.
  intros Hper. unfold toneFreq.
  destruct (per =? 0)%Z eqn:E.
  - apply Z.eqb_eq in E. exists (1 # 10000).
    split; [reflexivity |]. split; [reflexivity |].
    split; [reflexivity | intros; contradiction].
  - apply Z.eqb_neq in E.
    assert (Hpos : 0 < inject_Z (16 * per)) by (apply inject_Z_pos; lia).
    exists (inject_Z clock / inject_Z (16 * per)).
    rewrite div_some by lra.
    split; [reflexivity |]. split; [| split; [intros; contradiction | reflexivity]].
    apply Qlt_shift_div_l; [exact Hpos |].
    unfold clock. rewrite Qmult_0_l. reflexivity.
Qed.

(** ** The envelope step *)

Lemma envChanged_true (e : Env) (envShape : Z) (pSec : Q) :
  envChanged e envShape pSec = true <->
  envShape <> shape e \/ (1 # 1000000) < Qabs (periodSec e - pSec).
Proof.
  unfold envChanged. rewrite orb_true_iff, negb_true_iff, Z.eqb_neq, ltb_true.
  reflexivity.
Qed.

Lemma envChanged_false (e : Env) (envShape : Z) (pSec : Q) :
  envChanged e envShape pSec = false <->
  envShape = shape e /\ Qabs (periodSec e - pSec) <= (1 # 1000000).
Proof.
  unfold envChanged. rewrite orb_false_iff, negb_false_iff, Z.eqb_eq, ltb_false.
  reflexivity.
Qed.

(** The divisor of the phase advance is never 0. *)
Lemma envStep_total (e : Env) (envShape : Z) (pSec now : Q) :
  exists e', envStep e envShape pSec now = Some e'.
Proof.
  unfold envStep. destruct (envChanged e envShape pSec); [eauto |].
  rewrite div_some by (apply or_else_nonzero; discriminate).
  simpl. eauto.
Qed.

Lemma envStep_level_unit (e e' : Env) (envShape : Z) (pSec now : Q) :
  envStep e envShape pSec now = Some e' -> 0 <= level e' <= 1.
Proof.
  unfold envStep. destruct (envChanged e envShape pSec).
  - intros [= <-]. simpl. lra.
  - rewrite div_some by (apply or_else_nonzero; discriminate).
    simpl. intros [= <-]. simpl. apply envelopeLevel_unit.
Qed.

(** ** [applyRegs]: what a call leaves in the replayer *)

Lemma applyRegs_inv (s : AYReplayer) (r : list byte) (now : Q) :
  exists fA fB fC e s',
    toneFreq (tonePeriod r 0 1) = Some fA /\
    toneFreq (tonePeriod r 2 3) = Some fB /\
    toneFreq (tonePeriod r 4 5) = Some fC /\
    envStep (env s) (Z.land (reg r 13) 15) (periodSecOf (envPeriodOf r)) now
      = Some e /\
    applyRegs s r now = Some s' /\
    env s' = e /\
    A s' = setVoice (A s) fA (toneGain r e 1 8 (A s)) /\
    B s' = setVoice (B s) fB (toneGain r e 2 9 (B s)) /\
    C s' = setVoice (C s) fC (toneGain r e 4 10 (C s)) /\
    Noise s' =
      {| bp_frequency := inject_Z (Z.land (reg r 6) 31 * 200 + 1000);
         noise_gain_value := noiseGain r s;
         noise_volUser := noise_volUser (Noise s) |} /\
    rate s' = rate s /\ frames s' = frames s /\ timer s' = timer s /\
    play_i s' = play_i s.
Proof.
  destruct (toneFreq_value (tonePeriod r 0 1)) as (fA & HA & _);
    [apply tonePeriod_range |].
  destruct (toneFreq_value (tonePeriod r 2 3)) as (fB & HB & _);
    [apply tonePeriod_range |].
  destruct (toneFreq_value (tonePeriod r 4 5)) as (fC & HC & _);
    [apply tonePeriod_range |].
  destruct (envStep_total (env s) (Z.land (reg r 13) 15)
              (periodSecOf (envPeriodOf r)) now) as (e & He).
  exists fA, fB, fC, e. unfold applyRegs.
  rewrite HA, HB, HC. cbn [bind]. rewrite He. cbn [bind].
  eexists. repeat split.
Qed.

Lemma applyRegs_total (s : AYReplayer) (r : list byte) (now : Q) :
  exists s', applyRegs s r now = Some s'.
Proof.
  destruct (applyRegs_inv s r now) as (fA & fB & fC & e & s' & H).
  exists s'. tauto.
Qed.

(** ** Ranges of the applied values *)

Lemma staticVol_range (r : list byte) (i : nat) : (0 <= staticVol r i <= 15)%Z.
Proof.
  unfold staticVol. rewrite land_15.
  pose proof (Z.mod_pos_bound (reg r i) 16). lia.
Qed.

Lemma envGain_unit (b : bool) (e : Env) (v : Z) :
  0 <= level e <= 1 -> (0 <= v <= 15)%Z -> inUnit (envGain b e v).
Proof.
  intros He Hv. unfold envGain, inUnit. destruct b; [exact He |].
  assert (0 <= inject_Z v) by (unfold Qle, inject_Z; simpl; lia).
  assert (inject_Z v <= 15) by (unfold Qle, inject_Z; simpl; lia).
  split.
  - apply Qle_shift_div_l; lra.
  - apply Qle_shift_div_r; lra.
Qed.

Lemma inUnit_mul (x y : Q) : inUnit x -> inUnit y -> inUnit (x * y).
Proof. unfold inUnit. intros [? ?] [? ?]. split; nra. Qed.

Lemma toneGain_unit (r : list byte) (e : Env) (bit : Z) (i : nat) (v : Voice) :
  0 <= level e <= 1 -> inUnit (volUser v) -> inUnit (toneGain r e bit i v).
Proof.
  intros He Hv. unfold toneGain.
  destruct (pathOn _ _ _ _ _).
  - apply inUnit_mul; [| exact Hv].
    apply envGain_unit; [exact He | apply staticVol_range].
  - unfold inUnit. lra.
Qed.

Lemma noiseGain_unit (r : list byte) (s : AYReplayer) :
  inUnit (noise_volUser (Noise s)) -> inUnit (noiseGain r s).
Proof.
  intros H. unfold noiseGain.
  destruct (_ || _)%bool; [exact H | unfold inUnit; lra].
Qed.

Lemma noiseFilter_positive (r : list byte) :
  0 < inject_Z (Z.land (reg r 6) 31 * 200 + 1000).
Proof.
  apply inject_Z_pos. rewrite land_31.
  pose proof (Z.mod_pos_bound (reg r 6) 32). lia.
Qed.

(** A frame that opens tone A at static volume 15, on a fresh replayer:
    gain 1 on tone path A, 0 on the others and on the noise path. *)
Example applyRegs_tone_a_only :
  exists s',
    applyRegs newAYReplayer frameToneA 0 = Some s' /\
    gain_value (A s') == 1 /\ gain_value (B s') == 0 /\
    gain_value (C s') == 0 /\ noise_gain_value (Noise s') == 0.
Proof. eexists. repeat split. Qed.




(** ** Tone period and frequency *)

Lemma applyRegs_voice (s s' : AYReplayer) (r : list byte) (now : Q)
  (ch : Channel) :
  applyRegs s r now = Some s' ->
  exists f,
    toneFreq (tonePeriod r (periodLo ch) (periodHi ch)) = Some f /\
    osc_frequency (voice ch s') = f.
Proof.
  intros Hs'.
  destruct (applyRegs_inv s r now)
    as (fA & fB & fC & e & s1 & HfA & HfB & HfC & _ & Hs1 & _ &
        HA & HB & HC & _).
  assert (s1 = s') by congruence. subst s1.
  destruct ch; simpl; [exists fA | exists fB | exists fC];
    (split; [assumption |]);
    [rewrite HA | rewrite HB | rewrite HC]; reflexivity.
Qed.

(** The gains and the envelope after a call depend on the registers 6 to
    13 only. *)
Lemma applyRegs_gain_regs (s s1 : AYReplayer) (r r' : list byte) (now : Q) :
  (forall i, (6 <= i)%nat -> reg r' i = reg r i) ->
  applyRegs s r now = Some s1 ->
  exists s2,
    applyRegs s r' now = Some s2 /\
    (forall ch, gain_value (voice ch s2) = gain_value (voice ch s1)) /\
    noise_gain_value (Noise s2) = noise_gain_value (Noise s1) /\
    env s2 = env s1.
Proof.
  intros Hregs Hs1.
  assert (H7 : reg r' 7 = reg r 7) by (apply Hregs; lia).
  assert (H8 : reg r' 8 = reg r 8) by (apply Hregs; lia).
  assert (H9 : reg r' 9 = reg r 9) by (apply Hregs; lia).
  assert (H10 : reg r' 10 = reg r 10) by (apply Hregs; lia).
  assert (H11 : reg r' 11 = reg r 11) by (apply Hregs; lia).
  assert (H12 : reg r' 12 = reg r 12) by (apply Hregs; lia).
  assert (H13 : reg r' 13 = reg r 13) by (apply Hregs; lia).
  destruct (applyRegs_inv s r now)
    as (fA & fB & fC & e & s1' & _ & _ & _ & He & Hs1' & Henv &
        HA & HB & HC & HN & _).
  assert (s1' = s1) by congruence. subst s1'.
  destruct (applyRegs_inv s r' now)
    as (fA' & fB' & fC' & e' & s2 & _ & _ & _ & He' & Hs2 & Henv' &
        HA' & HB' & HC' & HN' & _).
  assert (Hee : e' = e).
  { unfold envPeriodOf in He'. rewrite H11, H12, H13 in He'.
    fold (envPeriodOf r) in He'. congruence. }
  rewrite Hee in *. clear Hee He'.
  exists s2. split; [exact Hs2 |]. split; [| split].
  - intros ch. destruct ch; simpl;
      [rewrite HA, HA' | rewrite HB, HB' | rewrite HC, HC'];
      unfold setVoice, toneGain, envFlag, staticVol; simpl;
      rewrite H7, ?H8, ?H9, ?H10; reflexivity.
  - rewrite HN, HN'. simpl.
    unfold noiseGain, envFlag, staticVol. rewrite H7, H8, H9, H10. reflexivity.
  - congruence.
Qed.

(** C3. For every frame and each channel, the tone period is the 12-bit
    value made of the channel's low byte and the low nibble of the next
    byte; [applyRegs] hands to the oscillator the frequency
    [clock / (16 * period)] when the period is not 0 and the floor 0.0001
    when it is 0, a positive number either way; and the gains (and the
    envelope) it leaves are the same for any two frames that agree on the
    registers 6 to 13, whatever their period registers hold. *)
Theorem tone_period_frequency (s : AYReplayer) (r : list byte) (now : Q) :
  exists s',
    applyRegs s r now = Some s' /\
    (forall ch,
        let per := tonePeriod r (periodLo ch) (periodHi ch) in
        per = (reg r (periodHi ch) mod 16 * 256 + reg r (periodLo ch))%Z /\
        (0 <= per < 4096)%Z /\
        (per <> 0%Z ->
         osc_frequency (voice ch s') = inject_Z clock / inject_Z (16 * per)) /\
        (per = 0%Z -> osc_frequency (voice ch s') = (1 # 10000)) /\
        0 < osc_frequency (voice ch s')) /\
    (forall r',
        (forall i, (6 <= i)%nat -> reg r' i = reg r i) ->
        exists s'',
          applyRegs s r' now = Some s'' /\
          (forall ch, gain_value (voice ch s'') = gain_value (voice ch s')) /\
          noise_gain_value (Noise s'') = noise_gain_value (Noise s') /\
          env s'' = env s').
Proof.
  destruct (applyRegs_total s r now) as (s' & Hs').
  exists s'. split; [exact Hs' |]. split.
  - intros ch per.
    destruct (applyRegs_voice s s' r now ch Hs') as (f & Hf & Hosc).
    destruct (toneFreq_value per) as (f' & Hf' & Hpos & H0 & Hn0);
      [apply tonePeriod_range |].
    assert (f' = f) by (unfold per in Hf'; congruence). subst f'.
    rewrite Hosc.
    split; [apply tonePeriod_value |].
    split; [apply tonePeriod_range |].
    split; [exact Hn0 |]. split; [exact H0 | exact Hpos].
  - intros r' Hregs. exact (applyRegs_gain_regs s s' r r' now Hregs Hs').
Qed.

(** ** Envelope re-trigger and advance *)

Lemma envStep_reset (e : Env) (envShape : Z) (pSec now : Q) :
  envChanged e envShape pSec = true ->
  envStep e envShape pSec now =
    Some {| periodSec := pSec; shape := envShape; phase := 0; level := 1;
            lastUpdate := now |}.
Proof. intros H. unfold envStep. rewrite H. reflexivity. Qed.

(** A stored period within the tolerance of a derived one is positive. *)
Lemma stored_period_positive (e : Env) (envShape : Z) (pSec : Q) :
  envChanged e envShape pSec = false -> (32 # 1000000) <= pSec ->
  0 < periodSec e.
Proof.
  intros H Hp. apply envChanged_false in H. destruct H as [_ H].
  apply Qabs_Qle_condition in H. lra.
Qed.

(** The time the advance of the phase counts: [now - (lastUpdate || now)]. *)
Lemma elapsed_value (lu now : Q) :
  now - Num.or_else lu now == (if Qeq_bool lu 0 then 0 else now - lu).
Proof.
  unfold Num.or_else, Num.truthy.
  destruct (Qeq_bool lu 0); simpl; ring.
Qed.

Lemma envStep_advance (e : Env) (envShape : Z) (pSec now : Q) :
  envChanged e envShape pSec = false -> (32 # 1000000) <= pSec ->
  exists e',
    envStep e envShape pSec now = Some e' /\
    shape e' = shape e /\ periodSec e' = periodSec e /\
    lastUpdate e' = now /\
    phase e' ==
      phase e + (if Qeq_bool (lastUpdate e) 0 then 0 else now - lastUpdate e)
                / periodSec e /\
    level e' = envelopeLevel (phase e') (shape e).
Proof.
  intros H Hp.
  pose proof (stored_period_positive e envShape pSec H Hp) as Hpos.
  unfold envStep. rewrite H.
  rewrite (or_else_keep (periodSec e)) by (apply pos_nonzero; exact Hpos).
  rewrite div_some by (apply pos_nonzero; exact Hpos). cbn [bind].
  eexists. split; [reflexivity |]. simpl.
  repeat split.
  rewrite elapsed_value. reflexivity.
Qed.

(** C10. For every frame: the 16-bit envelope period read from registers 11
    and 12 is replaced by 1 when it is 0, so the period in seconds derived
    from it is strictly positive; the divisor of the phase advance is the
    stored period, or 0.001 when that is 0, hence never 0; and the envelope
    update returns for every envelope state, frame and clock value, which
    it does only if no divisor is 0. *)
Theorem envelope_period_never_zero (r : list byte) (e : Env) (now : Q) :
  let raw := Z.lor (Z.shiftl (reg r 12) 8) (reg r 11) in
  raw = (reg r 12 * 256 + reg r 11)%Z /\
  (0 <= raw < 65536)%Z /\
  (raw = 0%Z -> envPeriodOf r = 1%Z) /\
  (raw <> 0%Z -> envPeriodOf r = raw) /\
  0 < periodSecOf (envPeriodOf r) /\
  (periodSec e == 0 -> Num.or_else (periodSec e) (1 # 1000) = (1 # 1000)) /\
  ~ Num.or_else (periodSec e) (1 # 1000) == 0 /\
  exists e',
    envStep e (Z.land (reg r 13) 15) (periodSecOf (envPeriodOf r)) now = Some e'.
Proof.
  intros raw.
  assert (Hraw : raw = (reg r 12 * 256 + reg r 11)%Z).
  { unfold raw. rewrite lor_shiftl_add; [reflexivity | lia |].
    pose proof (reg_range r 11). simpl. lia. }
  split; [exact Hraw |].
  split; [pose proof (reg_range r 11); pose proof (reg_range r 12); lia |].
  split; [| split].
  - intros H0. unfold envPeriodOf. fold raw. rewrite H0. reflexivity.
  - intros Hn. unfold envPeriodOf. fold raw.
    apply Z.eqb_neq in Hn. rewrite Hn. reflexivity.
  - split; [pose proof (periodSecOf_lower r); lra |].
    split; [| split].
    + intros H0. unfold Num.or_else.
      apply truthy_false in H0. rewrite H0. reflexivity.
    + apply or_else_nonzero. discriminate.
    + apply envStep_total.
Qed.

Lemma envelope_period_never_zero_witness :
  periodSec (env newAYReplayer) == (5 # 100) /\
  envPeriodOf frameZero = 1%Z.
Proof.
  split; [reflexivity |].
  apply (envelope_period_never_zero frameZero (env newAYReplayer) 0).
  reflexivity.
Defined.

Lemma applyRegs_env (s s' : AYReplayer) (r : list byte) (now : Q) :
  applyRegs s r now = Some s' ->
  envStep (env s) (Z.land (reg r 13) 15) (periodSecOf (envPeriodOf r)) now
    = Some (env s').
Proof.
  intros Hs'.
  destruct (applyRegs_inv s r now)
    as (fA & fB & fC & e & s1 & _ & _ & _ & He & Hs1 & Henv & _).
  assert (s1 = s') by congruence. subst s1. rewrite Henv. exact He.
Qed.

(** C4, as stated, fails: the first call, at clock value 0, records the
    reset time 0; the next call, at clock value 1 with the same shape and
    period, leaves the phase where it was, where the claim has it advance
    by the time elapsed since the last update (1) over the period. *)
Lemma phase_advance_skips_zero_update :
  exists s1 s2,
    applyRegs newAYReplayer frameZero 0 = Some s1 /\
    applyRegs s1 frameZero 1 = Some s2 /\
    envChanged (env s1) (Z.land (reg frameZero 13) 15)
               (periodSecOf (envPeriodOf frameZero)) = false /\
    lastUpdate (env s1) == 0 /\
    phase (env s2) == phase (env s1) /\
    ~ phase (env s2) ==
        phase (env s1) + (1 - lastUpdate (env s1)) / periodSec (env s1).
Proof.
  do 2 eexists.
  split; [reflexivity |]. split; [reflexivity |].
  split; [reflexivity |]. split; [reflexivity |].
  split; [reflexivity |].
  vm_compute. discriminate.
Qed.

(** C4, amended.  For every replayer state, frame and clock value,
    [applyRegs] returns and: if the shape read from register 13 differs
    from the stored one, or the period derived from registers 11 and 12
    differs from the stored one by more than 0.000001, the phase is reset
    to 0, the level to 1, and the shape, the period and the clock value are
    recorded; otherwise the shape and the period stay, the clock value is
    recorded, the phase advances by [dt / period], where [dt] is the time
    since the recorded update when that record is not 0 and is 0 when it
    is 0, and the level is recomputed from the new phase and the shape by
    [envelopeLevel], which follows the four wave families and lies in
    [0,1]. *)
Theorem envelope_retrigger_or_advance (s : AYReplayer) (r : list byte)
  (now : Q) :
  let e := env s in
  let envShape := Z.land (reg r 13) 15 in
  let pSec := periodSecOf (envPeriodOf r) in
  exists s',
    applyRegs s r now = Some s' /\
    (envShape <> shape e \/ (1 # 1000000) < Qabs (periodSec e - pSec) ->
     env s' = {| periodSec := pSec; shape := envShape; phase := 0; level := 1;
                 lastUpdate := now |}) /\
    (envShape = shape e /\ Qabs (periodSec e - pSec) <= (1 # 1000000) ->
     shape (env s') = shape e /\ periodSec (env s') = periodSec e /\
     lastUpdate (env s') = now /\
     phase (env s') ==
       phase e + (if Qeq_bool (lastUpdate e) 0 then 0 else now - lastUpdate e)
                 / periodSec e /\
     level (env s') = envelopeLevel (phase (env s')) (shape e)) /\
    (forall ph sh, waveFamilies ph sh /\ 0 <= envelopeLevel ph sh <= 1) /\
    0 <= level (env s') <= 1.
Proof.
  intros e envShape pSec.
  destruct (applyRegs_total s r now) as (s' & Hs').
  pose proof (applyRegs_env s s' r now Hs') as He.
  fold e envShape pSec in He.
  exists s'. split; [exact Hs' |]. split; [| split; [| split]].
  - intros Hch. apply envChanged_true in Hch.
    rewrite (envStep_reset _ _ _ _ Hch) in He. congruence.
  - intros Hsame. apply envChanged_false in Hsame.
    destruct (envStep_advance e envShape pSec now Hsame (periodSecOf_lower r))
      as (e' & He' & H).
    assert (e' = env s') by congruence. subst e'. exact H.
  - intros ph sh. split; [apply envelopeLevel_families | apply envelopeLevel_unit].
  - exact (envStep_level_unit _ _ _ _ _ He).
Qed.

Lemma envelope_retrigger_or_advance_witness :
  exists s',
    applyRegs settled frameZero 2 = Some s' /\
    phase (env s') ==
      phase (env settled) + (2 - lastUpdate (env settled))
                            / periodSec (env settled).
Proof.
  destruct (envelope_retrigger_or_advance settled frameZero 2)
    as (s' & Hs' & _ & Hadv & _).
  exists s'. split; [exact Hs' |].
  apply Hadv. split; [reflexivity | vm_compute; discriminate].
Defined.

(** C7, as stated, fails, in both halves.  Two consecutive calls that read
    the same clock value (as the calls of one batch of the scheduler do),
    with shape and period unchanged, leave the phase where it was.  And
    the level is not a function of the phase: the first call on a frame
    with the triangle shape re-triggers the envelope, which sets the level
    to 1 at phase 0; the second call, shape and period unchanged, at the
    same clock value, leaves the phase at 0 and sets the level to 0. *)
Lemma phase_not_strictly_increasing :
  (exists s1 s2,
    applyRegs newAYReplayer frameZero 1 = Some s1 /\
    applyRegs s1 frameZero 1 = Some s2 /\
    envChanged (env s1) (Z.land (reg frameZero 13) 15)
               (periodSecOf (envPeriodOf frameZero)) = false /\
    ~ phase (env s1) < phase (env s2)) /\
  (exists s1 s2,
    applyRegs newAYReplayer frameTriangle 1 = Some s1 /\
    applyRegs s1 frameTriangle 1 = Some s2 /\
    envChanged (env s1) (Z.land (reg frameTriangle 13) 15)
               (periodSecOf (envPeriodOf frameTriangle)) = false /\
    phase (env s1) == 0 /\ phase (env s2) == 0 /\
    level (env s1) == 1 /\ level (env s2) == 0).
Proof.
  split.
  - do 2 eexists.
    split; [reflexivity |]. split; [reflexivity |]. split; [reflexivity |].
    vm_compute. discriminate.
  - do 2 eexists.
    split; [reflexivity |]. split; [reflexivity |]. split; [reflexivity |].
    repeat split.
Qed.

Lemma envelopeLevel_lipschitz (p q : Q) (sh : Z) :
  Num.trunc p = Num.trunc q ->
  Qabs (envelopeLevel p sh - envelopeLevel q sh) <= 2 * Qabs (p - q).
Proof.
  intros Ht. rewrite !envelopeLevel_fraction.
  assert (H : p - q == Num.rem1 p - Num.rem1 q).
  { pose proof (rem1_trunc p) as Hp. pose proof (rem1_trunc q) as Hq.
    rewrite Ht in Hp. lra. }
  rewrite H. apply levelOfFraction_lipschitz.
Qed.

(** At phase 0 the falling ramp is at 1 and every other wave at 0. *)
Lemma envelopeLevel_zero (sh : Z) :
  envelopeLevel 0 sh = if fallingRamp sh then 1 else 0.
Proof.
  unfold envelopeLevel, fallingRamp. cbv zeta.
  destruct (negb (Z.land sh 4 =? 0)%Z), (negb (Z.land sh 2 =? 0)%Z),
    (negb (Z.land sh 1 =? 0)%Z); reflexivity.
Qed.

(** What a call leaves in the envelope, by the branch it took. *)
Lemma applyRegs_level_held (s0 s : AYReplayer) (r0 : list byte) (now0 : Q) :
  applyRegs s0 r0 now0 = Some s ->
  (envChanged (env s0) (Z.land (reg r0 13) 15) (periodSecOf (envPeriodOf r0))
     = false ->
   level (env s) = envelopeLevel (phase (env s)) (shape (env s))) /\
  (envChanged (env s0) (Z.land (reg r0 13) 15) (periodSecOf (envPeriodOf r0))
     = true ->
   phase (env s) = 0 /\ level (env s) = 1 /\
   envelopeLevel (phase (env s)) (shape (env s))
     = if fallingRamp (shape (env s)) then 1 else 0).
Proof.
  intros Hs. pose proof (applyRegs_env s0 s r0 now0 Hs) as He. split.
  - intros Hsame.
    destruct (envStep_advance _ _ _ now0 Hsame (periodSecOf_lower r0))
      as (e' & He' & Hsh & _ & _ & _ & Hlv).
    assert (e' = env s) by congruence. subst e'.
    rewrite Hsh. exact Hlv.
  - intros Hch. rewrite (envStep_reset _ _ _ _ Hch) in He.
    assert (Henv : env s =
              {| periodSec := periodSecOf (envPeriodOf r0);
                 shape := Z.land (reg r0 13) 15; phase := 0; level := 1;
                 lastUpdate := now0 |}) by congruence.
    rewrite Henv. cbn [phase level shape].
    split; [reflexivity |]. split; [reflexivity |]. apply envelopeLevel_zero.
Qed.

(** C7, amended.  When the shape and the period are unchanged and the clock
    has not gone back since the recorded update, [applyRegs] leaves a phase
    that is no smaller than before; it is strictly greater when the
    recorded update time is not 0 and the clock has moved on, and equal
    when the recorded time is 0 or equals the clock value.  The phase is
    accumulated without wrap-around: it is the phase held before plus the
    time counted over the period.  The level held after the call is
    [envelopeLevel] of the new phase; when the two phases have the same
    integer part (no wrap of [phase % 1] between them) it is within twice
    the advance of the phase of [envelopeLevel] of the phase held before,
    hence of the level held before when that level was itself
    [envelopeLevel] of its phase.  That is so when the call before
    advanced the phase.  When the call before re-triggered the envelope,
    the phase held is 0 and the level held is 1 whatever the shape, while
    [envelopeLevel] at phase 0 is 1 for the falling ramp only and 0 for
    the three other families: there the level jumps.  [envelopeLevel]
    itself is 2-Lipschitz, hence continuous, over phases with the same
    integer part. *)
Theorem envelope_phase_monotone_level_continuous (s : AYReplayer)
  (r : list byte) (now : Q) :
  envChanged (env s) (Z.land (reg r 13) 15) (periodSecOf (envPeriodOf r))
    = false ->
  lastUpdate (env s) <= now ->
  exists s',
    applyRegs s r now = Some s' /\
    phase (env s) <= phase (env s') /\
    (~ lastUpdate (env s) == 0 -> lastUpdate (env s) < now ->
     phase (env s) < phase (env s')) /\
    (lastUpdate (env s) == 0 \/ lastUpdate (env s) == now ->
     phase (env s') == phase (env s)) /\
    phase (env s') ==
      phase (env s)
      + (if Qeq_bool (lastUpdate (env s)) 0 then 0 else now - lastUpdate (env s))
        / periodSec (env s) /\
    level (env s') = envelopeLevel (phase (env s')) (shape (env s)) /\
    (Num.trunc (phase (env s)) = Num.trunc (phase (env s')) ->
     Qabs (level (env s') - envelopeLevel (phase (env s)) (shape (env s)))
       <= 2 * (phase (env s') - phase (env s))) /\
    (level (env s) == envelopeLevel (phase (env s)) (shape (env s)) ->
     Num.trunc (phase (env s)) = Num.trunc (phase (env s')) ->
     Qabs (level (env s') - level (env s))
       <= 2 * (phase (env s') - phase (env s))) /\
    (forall s0 r0 now0,
        applyRegs s0 r0 now0 = Some s ->
        (envChanged (env s0) (Z.land (reg r0 13) 15)
                    (periodSecOf (envPeriodOf r0)) = false ->
         level (env s) = envelopeLevel (phase (env s)) (shape (env s))) /\
        (envChanged (env s0) (Z.land (reg r0 13) 15)
                    (periodSecOf (envPeriodOf r0)) = true ->
         phase (env s) = 0 /\ level (env s) = 1 /\
         envelopeLevel (phase (env s)) (shape (env s))
           = if fallingRamp (shape (env s)) then 1 else 0)) /\
    (forall p q sh,
        Num.trunc p = Num.trunc q ->
        Qabs (envelopeLevel p sh - envelopeLevel q sh) <= 2 * Qabs (p - q)).
Proof.
  intros Hsame Hclock.
  destruct (applyRegs_total s r now) as (s' & Hs').
  pose proof (applyRegs_env s s' r now Hs') as He.
  pose proof (stored_period_positive _ _ _ Hsame (periodSecOf_lower r)) as Hpos.
  destruct (envStep_advance _ _ _ now Hsame (periodSecOf_lower r))
    as (e' & He' & _ & _ & _ & Hph & Hlv).
  assert (e' = env s') by congruence. subst e'.
  assert (Hphase :
            phase (env s) <= phase (env s') /\
            (~ lastUpdate (env s) == 0 -> lastUpdate (env s) < now ->
             phase (env s) < phase (env s')) /\
            (lastUpdate (env s) == 0 \/ lastUpdate (env s) == now ->
             phase (env s') == phase (env s))).
  { destruct (Qeq_bool (lastUpdate (env s)) 0) eqn:E.
    - apply Qeq_bool_iff in E.
      assert (H0 : phase (env s') == phase (env s)).
      { rewrite Hph. field. apply pos_nonzero. exact Hpos. }
      split; [rewrite H0; apply Qle_refl |].
      split; [intros Hn; contradiction | intros _; exact H0].
    - apply Qeq_bool_neq in E.
      set (dt := now - lastUpdate (env s)) in *.
      assert (Hdt : 0 <= dt) by (unfold dt; lra).
      assert (Hq : 0 <= dt / periodSec (env s)).
      { apply Qle_shift_div_l; [exact Hpos | lra]. }
      split; [rewrite Hph; lra |]. split.
      + intros _ Hlt.
        assert (0 < dt / periodSec (env s)).
        { apply Qlt_shift_div_l; [exact Hpos | unfold dt; lra]. }
        rewrite Hph. lra.
      + intros [H0 | Hnow]; [contradiction |].
        rewrite Hph. unfold dt. rewrite Hnow. field.
        apply pos_nonzero. exact Hpos. }
  destruct Hphase as (Hmono & Hstrict & Hequal).
  assert (Hbound :
            Num.trunc (phase (env s)) = Num.trunc (phase (env s')) ->
            Qabs (level (env s') - envelopeLevel (phase (env s)) (shape (env s)))
              <= 2 * (phase (env s') - phase (env s))).
  { intros Ht. rewrite Hlv.
    pose proof (envelopeLevel_lipschitz (phase (env s')) (phase (env s))
                  (shape (env s)) (eq_sym Ht)) as H.
    rewrite (Qabs_pos (phase (env s') - phase (env s))) in H by lra.
    exact H. }
  exists s'. split; [exact Hs' |]. split; [exact Hmono |].
  split; [exact Hstrict |]. split; [exact Hequal |]. split; [exact Hph |].
  split; [exact Hlv |]. split; [exact Hbound |].
  split; [| split].
  - intros Hheld Ht. rewrite Hheld. exact (Hbound Ht).
  - intros s0 r0 now0 Hs0. exact (applyRegs_level_held s0 s r0 now0 Hs0).
  - intros. apply envelopeLevel_lipschitz. assumption.
Qed.

(** A first call on a frame of zero registers at clock value 1 re-triggers
    the envelope (period 0.000032 s, falling ramp); a second call half a
    period later advances the phase from 0 to 1/2 and moves the level from
    1 to 1/2, within twice the advance. *)
Lemma envelope_phase_monotone_level_continuous_witness :
  applyRegs newAYReplayer frameZero 1 = Some afterFrameZero /\
  exists s',
    applyRegs afterFrameZero frameZero (1000016 # 1000000) = Some s' /\
    phase (env afterFrameZero) < phase (env s') /\
    Qabs (level (env s') - level (env afterFrameZero))
      <= 2 * (phase (env s') - phase (env afterFrameZero)) /\
    phase (env afterFrameZero) = 0 /\ level (env afterFrameZero) = 1.
Proof.
  assert (H0 : applyRegs newAYReplayer frameZero 1 = Some afterFrameZero)
    by reflexivity.
  split; [exact H0 |].
  assert (H1 : envChanged (env afterFrameZero) (Z.land (reg frameZero 13) 15)
                 (periodSecOf (envPeriodOf frameZero)) = false)
    by reflexivity.
  assert (H2 : lastUpdate (env afterFrameZero) <= 1000016 # 1000000)
    by (vm_compute; discriminate).
  destruct (envelope_phase_monotone_level_continuous afterFrameZero frameZero
              (1000016 # 1000000) H1 H2)
    as (s' & Hs' & _ & Hlt & _ & _ & _ & _ & Hcont & Hprev & _).
  assert (Ht : Num.trunc (phase (env afterFrameZero))
               = Num.trunc (phase (env s'))).
  { pose proof Hs' as Hc. vm_compute in Hc. injection Hc as Hc.
    rewrite <- Hc. reflexivity. }
  exists s'. split; [exact Hs' |].
  split; [apply Hlt; [intros H; vm_compute in H; discriminate | reflexivity] |].
  split; [apply Hcont; [reflexivity | exact Ht] |].
  destruct (Hprev newAYReplayer frameZero 1 H0) as (_ & Hre).
  destruct (Hre eq_refl) as (Hp & Hl & _). split; assumption.
Defined.

(** ** User volumes and applied gains *)

Lemma applyRegs_gains (s s' : AYReplayer) (r : list byte) (now : Q) :
  applyRegs s r now = Some s' ->
  (forall ch,
      gain_value (voice ch s')
        = toneGain r (env s') (toneBit ch) (volReg ch) (voice ch s)) /\
  noise_gain_value (Noise s') = noiseGain r s /\
  0 <= level (env s') <= 1.
Proof.
  intros Hs'.
  destruct (applyRegs_inv s r now)
    as (fA & fB & fC & e & s1 & _ & _ & _ & He & Hs1 & Henv &
        HA & HB & HC & HN & _).
  assert (s1 = s') by congruence. subst s1.
  split; [| split].
  - intros ch. rewrite Henv.
    destruct ch; simpl; [rewrite HA | rewrite HB | rewrite HC]; reflexivity.
  - rewrite HN. reflexivity.
  - rewrite Henv. exact (envStep_level_unit _ _ _ _ _ He).
Qed.

(** C5, as stated, fails: a volume of -1 given for channel A is stored as
    -1, not clamped, and the gain then handed to tone path A is -1, outside
    [0,1]. *)
Lemma user_volume_not_clamped :
  volUser (A (setUserControls newAYReplayer (onlyVolA (-1)))) = -1 /\
  ~ inUnit (volUser (A (setUserControls newAYReplayer (onlyVolA (-1))))) /\
  exists s',
    applyRegs (setUserControls newAYReplayer (onlyVolA (-1))) frameToneA 0
      = Some s' /\
    gain_value (A s') == -1 /\ ~ inUnit (gain_value (A s')).
Proof.
  split; [reflexivity |]. split.
  - intros [H _]. vm_compute in H. apply H. reflexivity.
  - eexists. split; [reflexivity |]. split; [reflexivity |].
    intros [H _]. vm_compute in H. apply H. reflexivity.
Qed.

(** C5, amended.  The user-control call takes any volumes and stores them
    as given (a missing one keeps the stored value; a missing mute flag
    counts as false); it rejects nothing and clamps nothing.  [applyRegs]
    then hands to each tone path the product of the register-derived level,
    which lies in [0,1], and the stored user volume, or 0 when the path is
    off, and to the noise path the stored noise volume or 0, unclamped; so
    the applied gains lie in [0,1] whenever the stored volumes do. *)
Theorem user_controls_stored_gain_scaled (s : AYReplayer) (u : UserControls)
  (r : list byte) (now : Q) :
  let s1 := setUserControls s u in
  (forall ch,
      volUser (voice ch s1) = parseFloatOr (volArg ch u) (volUser (voice ch s)) /\
      mute (voice ch s1) = toBool (muteArg ch u)) /\
  noise_volUser (Noise s1) = parseFloatOr (volN u) (noise_volUser (Noise s)) /\
  exists s',
    applyRegs s1 r now = Some s' /\
    (forall ch,
        gain_value (voice ch s')
          = toneGain r (env s') (toneBit ch) (volReg ch) (voice ch s1) /\
        inUnit (envGain (envFlag r (volReg ch)) (env s')
                        (staticVol r (volReg ch)))) /\
    noise_gain_value (Noise s') = noiseGain r s1 /\
    (volumesInUnit s1 -> gainsInUnit s').
Proof.
  intros s1.
  split; [intros ch; destruct ch; split; reflexivity |].
  split; [reflexivity |].
  destruct (applyRegs_total s1 r now) as (s' & Hs').
  destruct (applyRegs_gains s1 s' r now Hs') as (Hg & Hn & Hl).
  exists s'. split; [exact Hs' |]. split; [| split].
  - intros ch. split; [apply Hg |].
    apply envGain_unit; [exact Hl | apply staticVol_range].
  - exact Hn.
  - intros (HvA & HvB & HvC & HvN). unfold gainsInUnit.
    pose proof (Hg ChA) as HgA. pose proof (Hg ChB) as HgB.
    pose proof (Hg ChC) as HgC. simpl in HgA, HgB, HgC.
    rewrite HgA, HgB, HgC, Hn.
    repeat split;
      first [ apply toneGain_unit; assumption
            | apply noiseGain_unit; assumption ].
Qed.

Lemma user_controls_stored_gain_scaled_witness :
  exists s',
    applyRegs (setUserControls newAYReplayer (onlyVolA (1 # 2))) frameToneA 0
      = Some s' /\
    gainsInUnit s'.
Proof.
  destruct (user_controls_stored_gain_scaled newAYReplayer (onlyVolA (1 # 2))
              frameToneA 0) as (_ & _ & s' & Hs' & _ & _ & Hunit).
  exists s'. split; [exact Hs' |].
  apply Hunit. unfold volumesInUnit, inUnit. simpl.
  repeat split; discriminate.
Defined.

(** ** Transport: [play] and [stop] *)

(** C9. In every state, [play()] while the timer is live returns the state
    as it is, [play()] with no frames returns the state as it is, and
    [stop()] with no live timer returns the state as it is; in particular a
    stopped replayer with no frames stays stopped under [play()], and a
    second [stop()] changes nothing.  Neither call can fail. *)
Theorem transport_noops (s : AYReplayer) :
  (timer s <> None -> play s = s) /\
  (frames s = [] -> play s = s) /\
  (timer s = None -> stop s = s) /\
  (timer s = None -> frames s = [] -> timer (play s) = None) /\
  timer (stop s) = None /\
  stop (stop s) = stop s.
Proof.
  unfold play, stop.
  repeat split.
  - intros H. destruct (timer s); [reflexivity | contradiction].
  - intros H. rewrite H. simpl. rewrite orb_true_r. reflexivity.
  - intros H. rewrite H. reflexivity.
  - intros H1 H2. rewrite H1, H2. simpl. exact H1.
  - destruct (timer s) eqn:E; simpl; [reflexivity | exact E].
  - destruct (timer s) eqn:E; simpl; [reflexivity | rewrite E; reflexivity].
Qed.

Lemma transport_noops_witness :
  play newAYReplayer = newAYReplayer /\ stop newAYReplayer = newAYReplayer.
Proof.
  destruct (transport_noops newAYReplayer) as (_ & Hplay & Hstop & _).
  split; [apply Hplay | apply Hstop]; reflexivity.
Defined.

(** ** Loading *)

Local Open Scope Z_scope.

(** A frame count with the top bit set is negative as an int32: no frame
    is read. *)
Example parseYM_negative_count :
  parseYM [x59; x4d; x36; x21; xff; xff; xff; xff] =
    inr {| meta := {| version := "YM6!"; meta_frames := -1; meta_rate := 50 |};
           parsed_frames := [] |}.
Proof. reflexivity. Qed.

(** ** The lookahead scheduler *)

Local Open Scope Q_scope.

Lemma applyEvents_app (i : nat) (l1 l2 : list Frame) :
  applyEvents i (l1 ++ l2)
    = applyEvents i l1 ++ applyEvents (i + length l1) l2.
Proof.
  revert i. induction l1 as [| f l1 IH]; intros i; simpl.
  - rewrite Nat.add_0_r. reflexivity.
  - rewrite IH. do 3 f_equal. lia.
Qed.

Lemma firstn_snoc (fs : list Frame) (i : nat) (f : Frame) :
  nth_error fs i = Some f -> firstn (S i) fs = firstn i fs ++ [f].
Proof.
  revert i. induction fs as [| g fs IH]; intros [| i] H; simpl in *;
    try discriminate.
  - injection H as ->. reflexivity.
  - f_equal. apply IH. exact H.
Qed.

Lemma inject_nat_succ (i : nat) :
  inject_Z (Z.of_nat (S i)) == inject_Z (Z.of_nat i) + 1.
Proof. rewrite Nat2Z.inj_succ. unfold Z.succ. rewrite inject_Z_plus. reflexivity. Qed.

Lemma inject_nat_le (i j : nat) :
  (i <= j)%nat -> inject_Z (Z.of_nat i) <= inject_Z (Z.of_nat j).
Proof. intros H. rewrite <- Zle_Qle. lia. Qed.

Lemma run_stopped (currentTime : nat -> Q) (m : nat) (p : Page) :
  lookaheadId p = None -> run currentTime m p = Some p.
Proof. intros H. destruct m; simpl; [| rewrite H]; reflexivity. Qed.

Section SchedulerFacts.

Variable currentTime : nat -> Q.
Hypothesis clock_mono : forall k, currentTime k <= currentTime (S k).

Lemma clock_le (i j : nat) : (i <= j)%nat -> currentTime i <= currentTime j.
Proof.
  induction 1 as [| j _ IH]; [apply Qle_refl |].
  eapply Qle_trans; [exact IH | apply clock_mono].
Qed.

(** A run of [startFrames]: the track, the tick period, the clock value
    at the start, the trace before it, and a reading [n] of the clock by
    which the last tick is within the lead window. *)
Variables (fs : list Frame) (spf t0 : Q) (tr0 : list Event) (n : nat).
Hypothesis spf_pos : 0 < spf.
Hypothesis deadline :
  t0 + inject_Z (Z.of_nat (length fs)) * spf < currentTime n + ahead.

Local Abbreviation playing := (Playing fs spf t0 tr0).
Local Abbreviation finished := (Finished fs tr0).

Lemma playing_tick (p : Page) : playing p -> playing (tick p).
Proof. intros [H1 H2 H3 H4 H5 H6]. constructor; assumption. Qed.

Lemma playing_applied (p : Page) (f : Frame) (rp : AYReplayer) :
  playing p -> nth_error fs (frameIdx p) = Some f ->
  playing (applied p f rp).
Proof.
  intros [H1 H2 H3 H4 H5 H6] Hf.
  assert (Hlt : (frameIdx p < length fs)%nat).
  { apply nth_error_Some. rewrite Hf. discriminate. }
  constructor; unfold applied;
    cbn [lookaheadId cb_frames cb_spf frameIdx nextTime trace];
    try assumption.
  - rewrite H5, H3, inject_nat_succ. ring.
  - rewrite H6, (firstn_snoc _ _ _ Hf), applyEvents_app, <- app_assoc.
    cbn [applyEvents Nat.add].
    rewrite length_firstn, Nat.min_l by lia. reflexivity.
Qed.

Lemma finished_stop (p : Page) :
  playing p -> (length fs <= frameIdx p)%nat -> finished (stopFrames p).
Proof.
  intros [H1 H2 H3 H4 H5 H6] Hge. unfold stopFrames. rewrite H1.
  constructor; simpl.
  - reflexivity.
  - lia.
  - rewrite H6, firstn_all2 by lia. rewrite <- app_assoc. reflexivity.
Qed.

(** Before the clock reading [n] the next tick may be out of the lead
    window; from it on, it is within. *)
Lemma within_lead (p : Page) :
  playing p -> (n <= reads p)%nat ->
  nextTime p < currentTime (reads p) + ahead.
Proof.
  intros [H1 H2 H3 H4 H5 H6] Hn.
  pose proof (clock_le _ _ Hn) as Hc.
  pose proof (inject_nat_le _ _ H4) as Hi.
  assert (inject_Z (Z.of_nat (frameIdx p)) * spf
          <= inject_Z (Z.of_nat (length fs)) * spf).
  { apply Qmult_le_compat_r; [exact Hi | lra]. }
  rewrite H5. lra.
Qed.

(** One wake-up keeps the invariant, reads the clock, and, once the
    clock has reached reading [n], plays the track out and stops. *)
Lemma lookahead_inv (fuel : nat) (p : Page) :
  playing p -> (length fs - frameIdx p < fuel)%nat ->
  exists p',
    lookahead currentTime fuel p = Some p' /\
    (playing p' \/ finished p') /\
    (reads p < reads p')%nat /\
    ((n <= reads p)%nat -> finished p').
Proof.
  revert p. induction fuel as [| fuel IH]; intros p Hp Hfuel; [lia |].
  cbn [lookahead].
  pose proof (playing_tick p Hp) as Hpt.
  destruct (Num.ltb (nextTime (tick p)) (currentTime (reads p) + ahead))
    eqn:Hlt.
  - destruct (length (cb_frames (tick p)) <=? frameIdx (tick p))%nat eqn:Hend.
    + apply Nat.leb_le in Hend. rewrite (pl_frames Hpt) in Hend.
      pose proof (finished_stop _ Hpt Hend) as Hfin.
      exists (stopFrames (tick p)). split; [reflexivity |].
      split; [right; exact Hfin |]. split; [| intros _; exact Hfin].
      unfold stopFrames. destruct (isLive _); simpl; lia.
    + apply Nat.leb_gt in Hend. rewrite (pl_frames Hpt) in Hend.
      rewrite (pl_frames Hpt).
      destruct (nth_error fs (frameIdx (tick p))) as [f |] eqn:Hf;
        [| apply nth_error_None in Hf; lia].
      destruct (applyRegs_total (replayer (tick p)) (regs f)
                  (currentTime (reads (tick p)))) as (rp & Hrp).
      rewrite Hrp. cbn [bind].
      pose proof (playing_applied _ f rp Hpt Hf) as Hpa.
      destruct (IH (applied (tick p) f rp) Hpa) as (p' & Hrun & Hinv & Hr & Hfin).
      { simpl. simpl in Hend. lia. }
      exists p'. split; [exact Hrun |]. split; [exact Hinv |].
      simpl in Hr. split; [lia |].
      intros Hn. apply Hfin. simpl. lia.
  - exists (tick p). split; [reflexivity |].
    split; [left; exact Hpt |]. split; [simpl; lia |].
    intros Hn. exfalso.
    apply ltb_false in Hlt.
    pose proof (within_lead p Hp Hn) as Hw. simpl in Hlt. lra.
Qed.

Lemma wake_inv (p : Page) :
  playing p ->
  exists p',
    wake currentTime p = Some p' /\
    (playing p' \/ finished p') /\
    (reads p < reads p')%nat /\
    ((n <= reads p)%nat -> finished p').
Proof.
  intros Hp. unfold wake. apply lookahead_inv; [exact Hp |].
  rewrite (pl_frames Hp). lia.
Qed.

(** Enough wake-ups play the track out. *)
Lemma run_finishes (k : nat) (p : Page) :
  playing p -> (n <= reads p + k)%nat ->
  exists p', run currentTime (S k) p = Some p' /\ finished p'.
Proof.
  revert p. induction k as [| k IH]; intros p Hp Hn.
  - destruct (wake_inv p Hp) as (p' & Hw & _ & _ & Hfin).
    exists p'. cbn [run]. rewrite (pl_live Hp), Hw. cbn [bind].
    split; [reflexivity | apply Hfin; lia].
  - destruct (wake_inv p Hp) as (p1 & Hw & [Hp1 | Hf1] & Hr & _).
    + destruct (IH p1 Hp1) as (p' & Hrun & Hfin); [lia |].
      exists p'. split; [| exact Hfin].
      change (run currentTime (S (S k)) p)
        with (if isLive (lookaheadId p)
              then p' <- wake currentTime p ;; run currentTime (S k) p'
              else Some p).
      rewrite (pl_live Hp), Hw. exact Hrun.
    + exists p1. split; [| exact Hf1].
      change (run currentTime (S (S k)) p)
        with (if isLive (lookaheadId p)
              then p' <- wake currentTime p ;; run currentTime (S k) p'
              else Some p).
      rewrite (pl_live Hp), Hw. cbn [bind].
      apply run_stopped. exact (fin_stopped Hf1).
Qed.

End SchedulerFacts.

Lemma run_add (currentTime : nat -> Q) (a b : nat) (p : Page) :
  run currentTime (a + b) p
    = (p' <- run currentTime a p ;; run currentTime b p').
Proof.
  revert p. induction a as [| a IH]; intros p; [reflexivity |].
  cbn [run Nat.add].
  destruct (isLive (lookaheadId p)) eqn:Hlive.
  - destruct (wake currentTime p) as [p1 |]; cbn [bind]; [apply IH | reflexivity].
  - cbn [bind]. symmetry. apply run_stopped.
    destruct (lookaheadId p); [discriminate | reflexivity].
Qed.

(** The three ways a turn of the loop of a wake-up can go, by its test
    [nextTime < currentTime + ahead] and by [frameIdx >= frames.length]. *)
Lemma lookahead_turn (currentTime : nat -> Q) (fuel : nat) (p : Page) :
  let t := currentTime (reads p) in
  (nextTime p < t + ahead -> (frameIdx p < length (cb_frames p))%nat ->
   exists f rp,
     nth_error (cb_frames p) (frameIdx p) = Some f /\
     applyRegs (replayer p) (regs f) (currentTime (S (reads p))) = Some rp /\
     lookahead currentTime (S fuel) p
       = lookahead currentTime fuel (applied (tick p) f rp)) /\
  (nextTime p < t + ahead -> (length (cb_frames p) <= frameIdx p)%nat ->
   lookahead currentTime (S fuel) p = Some (stopFrames (tick p))) /\
  (t + ahead <= nextTime p ->
   lookahead currentTime (S fuel) p = Some (tick p)).
Proof.
  intros t. cbn [lookahead]. cbn [tick nextTime cb_frames frameIdx reads replayer].
  fold (tick p). fold t. split; [| split].
  - intros Hlt Hidx. apply ltb_true in Hlt. rewrite Hlt.
    pose proof Hidx as Hidx'. apply Nat.leb_gt in Hidx'. rewrite Hidx'.
    destruct (nth_error (cb_frames p) (frameIdx p)) as [f |] eqn:Hf;
      [| apply nth_error_None in Hf; lia].
    destruct (applyRegs_total (replayer p) (regs f) (currentTime (S (reads p))))
      as (rp & Hrp).
    exists f, rp. rewrite Hrp. repeat split.
  - intros Hlt Hidx. apply ltb_true in Hlt. rewrite Hlt.
    apply Nat.leb_le in Hidx. rewrite Hidx. reflexivity.
  - intros Hge. apply ltb_false in Hge. rewrite Hge. reflexivity.
Qed.



Lemma tone_period_frequency_witness :
  exists s',
    applyRegs newAYReplayer frameToneA 0 = Some s' /\
    osc_frequency (voice ChB s') = (1 # 10000).
Proof.
  destruct (tone_period_frequency newAYReplayer frameToneA 0)
    as (s' & Hs' & Hper & _).
  exists s'. split; [exact Hs' |].
  destruct (Hper ChB) as (_ & _ & _ & Hzero & _).
  apply Hzero. reflexivity.
Defined.

(** * Further properties *)

(** ** The interval of [play()] *)

Lemma applyRegs_withTransport (s : AYReplayer) (fs : list Frame) (q : Q)
  (tm : option nat) (i : nat) (r : list byte) (now : Q) :
  applyRegs (withTransport s fs q tm i) r now
    = option_map (fun s' => withTransport s' fs q tm i) (applyRegs s r now).
Proof.
  unfold applyRegs, withTransport. cbn [A B C Noise env rate frames timer play_i].
  destruct (toneFreq (tonePeriod r 0 1)); cbn [bind option_map]; [| reflexivity].
  destruct (toneFreq (tonePeriod r 2 3)); cbn [bind option_map]; [| reflexivity].
  destruct (toneFreq (tonePeriod r 4 5)); cbn [bind option_map]; [| reflexivity].
  destruct (envStep _ _ _ _); cbn [bind option_map]; reflexivity.
Qed.

Lemma applyFrames_withTransport (clk : nat -> Q) (fs : list Frame) (q : Q)
  (tm : option nat) (i : nat) (l : list Frame) (t : nat) (s : AYReplayer) :
  applyFrames clk t l (withTransport s fs q tm i)
    = option_map (fun s' => withTransport s' fs q tm i) (applyFrames clk t l s).
Proof.
  revert t s. induction l as [| f l IH]; intros t s; [reflexivity |].
  cbn [applyFrames]. rewrite applyRegs_withTransport.
  destruct (applyRegs s (regs f) (clk t)) as [s' |]; cbn [bind option_map];
    [apply IH | reflexivity].
Qed.

Lemma applyFrames_total (clk : nat -> Q) (l : list Frame) (t : nat)
  (s : AYReplayer) :
  exists s', applyFrames clk t l s = Some s'.
Proof.
  revert t s. induction l as [| f l IH]; intros t s; [eexists; reflexivity |].
  cbn [applyFrames].
  destruct (applyRegs_total s (regs f) (clk t)) as (s1 & H1). rewrite H1.
  cbn [bind]. apply IH.
Qed.

Lemma applyFrames_snoc (clk : nat -> Q) (l : list Frame) (f : Frame) (t : nat)
  (s : AYReplayer) :
  applyFrames clk t (l ++ [f]) s
    = (s' <- applyFrames clk t l s ;; applyRegs s' (regs f) (clk (t + length l)%nat)).
Proof.
  revert t s. induction l as [| g l IH]; intros t s.
  - cbn [app applyFrames bind length]. rewrite Nat.add_0_r.
    destruct (applyRegs s (regs f) (clk t)); reflexivity.
  - cbn [app applyFrames length].
    destruct (applyRegs s (regs g) (clk t)) as [s1 |]; cbn [bind]; [| reflexivity].
    rewrite IH. replace (S t + length l)%nat with (t + S (length l))%nat by lia.
    reflexivity.
Qed.

Lemma withTransport_self (s : AYReplayer) :
  withTransport s (frames s) (rate s) (timer s) (play_i s) = s.
Proof. destruct s. reflexivity. Qed.

Lemma skipn_cons_nth (fs : list Frame) (i : nat) (f : Frame) (rest : list Frame) :
  skipn i fs = f :: rest ->
  nth_error fs i = Some f /\ skipn (S i) fs = rest /\ (i < length fs)%nat.
Proof.
  revert i. induction fs as [| g fs IH]; intros [| i] H; simpl in *;
    try discriminate.
  - injection H as -> ->. repeat split. lia.
  - destruct (IH i H) as (H1 & H2 & H3). repeat split; [assumption .. | lia].
Qed.

(** The state after [k] firings, while frames remain. *)
Lemma playRun_prefix (clk : nat -> Q) (k t : nat) (s : AYReplayer) :
  isLive (timer s) = true ->
  (k <= length (skipn (play_i s) (frames s)))%nat ->
  exists sk,
    applyFrames clk t (firstn k (skipn (play_i s) (frames s))) s = Some sk /\
    playRun clk k t s
      = Some (withTransport sk (frames s) (rate s) (timer s) (play_i s + k)).
Proof.
  revert t s. induction k as [| k IH]; intros t s Hlive Hk.
  - exists s. split; [reflexivity |]. cbn [playRun].
    rewrite Nat.add_0_r, withTransport_self. reflexivity.
  - destruct (skipn (play_i s) (frames s)) as [| f rest] eqn:Hrest;
      [simpl in Hk; lia |].
    destruct (skipn_cons_nth _ _ _ _ Hrest) as (Hf & Hnext & Hlt).
    cbn [playRun firstn applyFrames]. rewrite Hlive. unfold playTick.
    apply Nat.leb_gt in Hlt. rewrite Hlt, Hf. clear Hlt.
    rewrite applyRegs_withTransport.
    destruct (applyRegs_total s (regs f) (clk t)) as (s2 & Hs2).
    rewrite Hs2. cbn [option_map bind].
    set (s2' := withTransport s2 (frames s) (rate s) (timer s) (S (play_i s))).
    destruct (IH (S t) s2') as (sk' & Hsk' & Hrun).
    { exact Hlive. }
    { unfold s2'. cbn [withTransport frames play_i]. rewrite Hnext.
      simpl in Hk. lia. }
    unfold s2' in Hsk', Hrun. cbn [withTransport frames play_i rate timer] in Hsk', Hrun.
    rewrite Hnext in Hsk'. fold s2' in Hsk'. unfold s2' in Hsk'.
    rewrite applyFrames_withTransport in Hsk'.
    destruct (applyFrames clk (S t) (firstn k rest) s2) as [sk |] eqn:Hsk;
      [| discriminate].
    cbn [option_map] in Hsk'. injection Hsk' as <-.
    exists sk. split; [reflexivity |].
    unfold s2'. rewrite Hrun. unfold withTransport at 1.
    cbn [withTransport A B C Noise env].
    replace (S (play_i s) + k)%nat with (play_i s + S k)%nat by lia.
    reflexivity.
Qed.

Lemma playRun_stopped (clk : nat -> Q) (m t : nat) (s : AYReplayer) :
  timer s = None -> playRun clk m t s = Some s.
Proof. intros H. destruct m; cbn [playRun]; [| rewrite H]; reflexivity. Qed.

Lemma playRun_add (clk : nat -> Q) (a b t : nat) (s : AYReplayer) :
  playRun clk (a + b) t s
    = (s' <- playRun clk a t s ;; playRun clk b (t + a) s').
Proof.
  revert t s. induction a as [| a IH]; intros t s.
  - cbn [Nat.add playRun bind]. rewrite Nat.add_0_r. reflexivity.
  - cbn [Nat.add playRun]. destruct (isLive (timer s)) eqn:Hlive.
    + destruct (playTick s (clk t)) as [s1 |]; cbn [bind]; [| reflexivity].
      rewrite IH. replace (S t + a)%nat with (t + S a)%nat by lia. reflexivity.
    + cbn [bind]. symmetry. apply playRun_stopped.
      destruct (timer s); [discriminate | reflexivity].
Qed.

(** X1. The interval callback of [play()], from wherever its index stands
    (0 after [play()]; a [load()] during playback leaves it where it is):
    for every clock, the first [k] firings apply the next [k] frames of the
    track, one per firing and in order; the firing after the last frame
    applies nothing and clears the timer; and later firings do not happen.
    The replayer is then the one [applyRegs] leaves after the remaining
    frames in order, with the timer cleared. *)
Theorem play_applies_each_frame_once (clk : nat -> Q) (t : nat)
  (s : AYReplayer) :
  timer s <> None ->
  let rest := skipn (play_i s) (frames s) in
  exists s1,
    applyFrames clk t rest s = Some s1 /\
    (forall k, (k <= length rest)%nat ->
       exists sk,
         applyFrames clk t (firstn k rest) s = Some sk /\
         playRun clk k t s
           = Some (withTransport sk (frames s) (rate s) (timer s)
                                 (play_i s + k))) /\
    (forall m, (length rest < m)%nat ->
       playRun clk m t s
         = Some (withTransport s1 (frames s) (rate s) None
                               (play_i s + length rest))).
Proof.
  intros Htimer rest.
  assert (Hlive : isLive (timer s) = true)
    by (destruct (timer s); [reflexivity | contradiction]).
  destruct (playRun_prefix clk (length rest) t s Hlive (Nat.le_refl _))
    as (s1 & Hs1 & Hrun1).
  fold rest in Hs1. rewrite firstn_all in Hs1.
  exists s1. split; [exact Hs1 |]. split.
  - intros k Hk. exact (playRun_prefix clk k t s Hlive Hk).
  - intros m Hm. replace m with (length rest + S (m - S (length rest)))%nat by lia.
    rewrite playRun_add, Hrun1. cbn [bind playRun].
    set (sn := withTransport s1 (frames s) (rate s) (timer s)
                             (play_i s + length rest)).
    change (timer sn) with (timer s). rewrite Hlive.
    unfold playTick.
    change (frames sn) with (frames s).
    change (play_i sn) with (play_i s + length rest)%nat.
    assert (Hend : (length (frames s) <=? play_i s + length rest)%nat = true).
    { apply Nat.leb_le. unfold rest. rewrite length_skipn. lia. }
    rewrite Hend. cbn [bind]. unfold stop.
    change (timer sn) with (timer s). rewrite Hlive.
    apply playRun_stopped. reflexivity.
Qed.

Lemma play_applies_each_frame_once_witness :
  exists s1,
    applyFrames sampleClock 0 [mkFrame frameToneA] (play loaded) = Some s1 /\
    playRun sampleClock 2 0 (play loaded)
      = Some (withTransport s1 (frames loaded) (rate loaded) None 1).
Proof.
  assert (H : timer (play loaded) <> None) by discriminate.
  destruct (play_applies_each_frame_once sampleClock 0 (play loaded) H)
    as (s1 & Hs1 & _ & Hrun).
  exists s1. split; [exact Hs1 |].
  apply (Hrun 2%nat). simpl. lia.
Defined.

(** ** User controls *)

Lemma setUserControls_twice (s : AYReplayer) (u : UserControls) :
  setUserControls (setUserControls s u) u = setUserControls s u.
Proof.
  unfold setUserControls.
  destruct u as [mA mB mC vA vB vC vN]. cbn.
  destruct vA, vB, vC, vN; reflexivity.
Qed.

(** X2. [setUserControls] is idempotent, and a call that gives every
    property overrides whatever an earlier call stored. *)
Theorem setUserControls_idempotent (s : AYReplayer) (u : UserControls) :
  setUserControls (setUserControls s u) u = setUserControls s u /\
  (forall mA mB mC vA vB vC vN,
      setUserControls (setUserControls s u) (controls mA mB mC vA vB vC vN)
        = setUserControls s (controls mA mB mC vA vB vC vN)).
Proof.
  split; [apply setUserControls_twice | intros; reflexivity].
Qed.

(** X3. The controls and the audio state are kept apart: [setUserControls]
    changes no frequency, gain or envelope field and no transport field (a
    mute or a volume is heard only from the next applied frame on), and
    [applyRegs] changes no mute flag, no user volume and no transport
    field. *)
Theorem controls_and_audio_are_separate (s : AYReplayer) (u : UserControls)
  (r : list byte) (now : Q) :
  let s1 := setUserControls s u in
  (forall ch,
      osc_frequency (voice ch s1) = osc_frequency (voice ch s) /\
      gain_value (voice ch s1) = gain_value (voice ch s)) /\
  bp_frequency (Noise s1) = bp_frequency (Noise s) /\
  noise_gain_value (Noise s1) = noise_gain_value (Noise s) /\
  env s1 = env s /\
  frames s1 = frames s /\ rate s1 = rate s /\ timer s1 = timer s /\
  play_i s1 = play_i s /\
  exists s',
    applyRegs s r now = Some s' /\
    (forall ch,
        mute (voice ch s') = mute (voice ch s) /\
        volUser (voice ch s') = volUser (voice ch s)) /\
    noise_volUser (Noise s') = noise_volUser (Noise s) /\
    frames s' = frames s /\ rate s' = rate s /\ timer s' = timer s /\
    play_i s' = play_i s.
Proof.
  intros s1.
  split; [intros ch; destruct ch; split; reflexivity |].
  do 7 (split; [reflexivity |]).
  destruct (applyRegs_inv s r now)
    as (fA & fB & fC & e & s' & _ & _ & _ & _ & Hs' & _ &
        HA & HB & HC & HN & Hrate & Hframes & Htimer & Hi).
  exists s'. split; [exact Hs' |].
  split; [| rewrite HN; repeat split; assumption].
  intros ch. destruct ch; simpl; [rewrite HA | rewrite HB | rewrite HC];
    split; reflexivity.
Qed.

(** X4. Muting a channel through [setUserControls] leaves the gain that is
    applied as it is, and the next frame, whatever its registers, the
    clock and the envelope, puts the gain of that channel's tone path to
    0. *)
Theorem mute_silences_from_next_frame (s : AYReplayer) (u : UserControls)
  (ch : Channel) (r : list byte) (now : Q) :
  muteArg ch u = Some true ->
  gain_value (voice ch (setUserControls s u)) = gain_value (voice ch s) /\
  exists s',
    applyRegs (setUserControls s u) r now = Some s' /\
    gain_value (voice ch s') = 0 /\
    mute (voice ch s') = true.
Proof.
  intros Hm.
  split; [destruct ch; reflexivity |].
  destruct (applyRegs_inv (setUserControls s u) r now)
    as (fA & fB & fC & e & s' & _ & _ & _ & _ & Hs' & _ &
        HA & HB & HC & _).
  exists s'. split; [exact Hs' |].
  destruct ch; simpl in Hm |- *;
    [rewrite HA | rewrite HB | rewrite HC];
    unfold setVoice, toneGain, pathOn; cbn; rewrite Hm; cbn;
    rewrite !andb_false_r; split; reflexivity.
Qed.

Lemma mute_silences_from_next_frame_witness :
  exists s',
    applyRegs (setUserControls newAYReplayer
                 (controls true false false 1 1 1 1)) frameToneA 0 = Some s' /\
    gain_value (voice ChA s') = 0.
Proof.
  destruct (mute_silences_from_next_frame newAYReplayer
              (controls true false false 1 1 1 1) ChA frameToneA 0 eq_refl)
    as (_ & s' & Hs' & Hg & _).
  exists s'. split; assumption.
Defined.

(** X5. The play button that is in force does not restart a track that is
    playing: with the timer live it only stores the controls, and the
    index of the interval callback stays where it is.  Two clicks with the
    same controls leave what one click leaves. *)
Theorem play_click_does_not_restart (s : AYReplayer) (u : UserControls) :
  (timer s <> None -> onPlayClick s u = setUserControls s u) /\
  onPlayClick (onPlayClick s u) u = onPlayClick s u.
Proof.
  unfold onPlayClick, play. split.
  - intros H. change (timer (setUserControls s u)) with (timer s).
    destruct (timer s); [reflexivity | contradiction].
  - change (timer (setUserControls s u)) with (timer s).
    change (frames (setUserControls s u)) with (frames s).
    destruct (isLive (timer s) || (length (frames s) =? 0)%nat) eqn:E.
    + rewrite setUserControls_twice.
      change (timer (setUserControls s u)) with (timer s).
      change (frames (setUserControls s u)) with (frames s).
      rewrite E. reflexivity.
    + destruct u as [mA mB mC vA vB vC vN].
      destruct vA, vB, vC, vN; reflexivity.
Qed.

Lemma play_click_does_not_restart_witness :
  onPlayClick (play loaded) (controls false false false 1 1 1 1)
    = setUserControls (play loaded) (controls false false false 1 1 1 1).
Proof.
  apply (proj1 (play_click_does_not_restart (play loaded)
                  (controls false false false 1 1 1 1))).
  discriminate.
Defined.

(** ** The mixer and the volume registers, bit by bit *)

Local Open Scope Z_scope.

Lemma land_pow2_testbit (x k : Z) :
  0 <= k -> (Z.land x (2 ^ k) =? 0) = negb (Z.testbit x k).
Proof.
  intros Hk.
  assert (H : Z.land x (2 ^ k) = if Z.testbit x k then 2 ^ k else 0).
  { apply Z.bits_inj'. intros m Hm.
    rewrite Z.land_spec, Z.pow2_bits_eqb by assumption.
    destruct (Z.eqb_spec k m) as [-> | Hne].
    - destruct (Z.testbit x m) eqn:E.
      + rewrite Z.pow2_bits_eqb, Z.eqb_refl by assumption. reflexivity.
      + rewrite Z.bits_0. reflexivity.
    - rewrite andb_false_r. destruct (Z.testbit x k).
      + rewrite Z.pow2_bits_eqb by assumption.
        symmetry. apply Z.eqb_neq. exact Hne.
      + rewrite Z.bits_0. reflexivity. }
  rewrite H. destruct (Z.testbit x k); [| reflexivity].
  apply Z.eqb_neq. apply Z.pow_nonzero; lia.
Qed.

Lemma pathOn_bits (r : list byte) (k : Z) (i : nat) (v : Voice) :
  0 <= k ->
  pathOn (reg r 7) (2 ^ k) (envFlag r i) (staticVol r i) v
    = negb (Z.testbit (reg r 7) k) && levelAsked (reg r i) && negb (mute v).
Proof.
  intros Hk. unfold pathOn, envFlag, staticVol, levelAsked.
  rewrite land_pow2_testbit by assumption.
  change 16 with (2 ^ 4) at 1. rewrite land_pow2_testbit by lia.
  rewrite negb_involutive, land_15.
  replace (0 <? reg r i mod 16) with (negb (reg r i mod 16 =? 0)); [reflexivity |].
  pose proof (Z.mod_pos_bound (reg r i) 16).
  destruct (Z.eqb_spec (reg r i mod 16) 0) as [E | E]; simpl; symmetry.
  - rewrite E. reflexivity.
  - apply Z.ltb_lt. lia.
Qed.

Lemma toneOn_bits (r : list byte) (ch : Channel) (s : AYReplayer) :
  toneOn r ch s
    = negb (Z.testbit (reg r 7) (chanIndex ch))
      && levelAsked (reg r (volReg ch)) && negb (mute (voice ch s)).
Proof.
  unfold toneOn.
  replace (toneBit ch) with (2 ^ chanIndex ch) by (destruct ch; reflexivity).
  apply pathOn_bits. destruct ch; simpl; lia.
Qed.

Lemma noisePathOn_bits (r : list byte) (ch : Channel) (s : AYReplayer) :
  noisePathOn r ch s
    = negb (Z.testbit (reg r 7) (chanIndex ch + 3))
      && levelAsked (reg r (volReg ch)) && negb (mute (voice ch s)).
Proof.
  unfold noisePathOn.
  replace (noiseBit ch) with (2 ^ (chanIndex ch + 3)) by (destruct ch; reflexivity).
  apply pathOn_bits. destruct ch; simpl; lia.
Qed.

Local Open Scope Q_scope.

Lemma noiseGain_paths (r : list byte) (s : AYReplayer) :
  noiseGain r s
    = if noisePathOn r ChA s || noisePathOn r ChB s || noisePathOn r ChC s
      then noise_volUser (Noise s) else 0.
Proof. reflexivity. Qed.

(** X6. What [applyRegs] hands to the gains, read off the bits of the
    frame.  Tone path of a channel: 0 when its bit (0, 1, 2) of the mixer
    register 7 is set, or the channel is muted, or its volume register has
    bit 4 clear and a zero low nibble; otherwise the user volume times the
    envelope level (bit 4 set) or times the low nibble over 15 (bit 4
    clear).  Noise path: the user noise volume, whatever the levels of the
    channels, as soon as one channel has its noise bit (3, 4, 5) clear, is
    not muted and asks for a level; 0 when no channel does. *)
Theorem gains_by_mixer_bits (s : AYReplayer) (r : list byte) (now : Q) :
  exists s',
    applyRegs s r now = Some s' /\
    (forall ch,
        let v := reg r (volReg ch) in
        (Z.testbit (reg r 7) (chanIndex ch) = true \/
         mute (voice ch s) = true \/ levelAsked v = false ->
         gain_value (voice ch s') = 0) /\
        (Z.testbit (reg r 7) (chanIndex ch) = false ->
         mute (voice ch s) = false -> levelAsked v = true ->
         gain_value (voice ch s')
           = (if Z.testbit v 4 then level (env s')
              else inject_Z (v mod 16) / 15) * volUser (voice ch s))) /\
    ((exists ch,
         Z.testbit (reg r 7) (chanIndex ch + 3) = false /\
         mute (voice ch s) = false /\ levelAsked (reg r (volReg ch)) = true) ->
     noise_gain_value (Noise s') = noise_volUser (Noise s)) /\
    ((forall ch,
         Z.testbit (reg r 7) (chanIndex ch + 3) = true \/
         mute (voice ch s) = true \/ levelAsked (reg r (volReg ch)) = false) ->
     noise_gain_value (Noise s') = 0).
Proof.
  destruct (applyRegs_total s r now) as (s' & Hs').
  destruct (applyRegs_gains s s' r now Hs') as (Hg & Hn & _).
  exists s'. split; [exact Hs' |]. split; [| split].
  - intros ch v. rewrite (Hg ch). unfold toneGain.
    fold (toneOn r ch s). rewrite toneOn_bits. fold v. split.
    + intros [H | [H | H]]; rewrite H; cbn;
        rewrite ?andb_false_r; reflexivity.
    + intros H1 H2 H3. rewrite H1, H2, H3. cbn.
      unfold envGain, envFlag, staticVol. fold v.
      change 16%Z with (2 ^ 4)%Z. rewrite land_pow2_testbit by lia.
      rewrite negb_involutive, land_15. reflexivity.
  - intros (ch & H1 & H2 & H3). rewrite Hn, noiseGain_paths.
    assert (Hon : noisePathOn r ch s = true)
      by (rewrite noisePathOn_bits, H1, H2, H3; reflexivity).
    destruct ch; rewrite Hon; rewrite ?orb_true_r; reflexivity.
  - intros Hall. rewrite Hn, noiseGain_paths.
    assert (Hoff : forall ch, noisePathOn r ch s = false).
    { intros ch. rewrite noisePathOn_bits.
      destruct (Hall ch) as [H | [H | H]]; rewrite H; cbn;
        rewrite ?andb_false_r; reflexivity. }
    rewrite !Hoff. reflexivity.
Qed.

Lemma gains_by_mixer_bits_witness :
  exists s',
    applyRegs newAYReplayer frameToneA 0 = Some s' /\
    gain_value (voice ChB s') = 0 /\ noise_gain_value (Noise s') = 0.
Proof.
  destruct (gains_by_mixer_bits newAYReplayer frameToneA 0)
    as (s' & Hs' & Htone & _ & Hnoise).
  exists s'. split; [exact Hs' |]. split.
  - apply (Htone ChB). left. reflexivity.
  - apply Hnoise. intros ch. left. destruct ch; reflexivity.
Defined.

(** ** Ranges of the applied frequencies *)

Lemma inject_Z_16 (per : Z) : inject_Z (16 * per) == 16 * inject_Z per.
Proof. rewrite inject_Z_mult. reflexivity. Qed.

Lemma toneFreq_nonzero (per : Z) (f : Q) :
  (0 < per)%Z -> toneFreq per = Some f ->
  f * (16 * inject_Z per) == 1000000 /\ 0 < inject_Z per.
Proof.
  intros Hper Hf.
  assert (Hpos : 0 < inject_Z per) by (apply inject_Z_pos; exact Hper).
  split; [| exact Hpos].
  unfold toneFreq in Hf.
  destruct (Z.eqb_spec per 0) as [E | _]; [lia |].
  rewrite div_some in Hf by (apply pos_nonzero, inject_Z_pos; lia).
  assert (E : f = inject_Z clock / inject_Z (16 * per)) by congruence.
  rewrite E. unfold clock.
  rewrite inject_Z_mult. change (inject_Z 16) with 16.
  field. apply pos_nonzero. exact Hpos.
Qed.

(** X7. The frequencies [applyRegs] hands out.  A tone path gets the floor
    0.0001 for the period 0 and otherwise a frequency between
    1000000/65520 (about 15.3 Hz, period 4095) and 62500 Hz (period 1),
    the smaller the longer the period; the noise filter gets
    [1000 + 200 * n] for the low five bits [n] of register 6, between 1000
    and 7200 Hz. *)
Theorem applied_frequency_ranges (s : AYReplayer) (r : list byte) (now : Q) :
  exists s',
    applyRegs s r now = Some s' /\
    (forall ch,
        tonePeriod r (periodLo ch) (periodHi ch) <> 0%Z ->
        (1000000 # 65520) <= osc_frequency (voice ch s') <= 62500) /\
    (forall ch1 ch2,
        (0 < tonePeriod r (periodLo ch1) (periodHi ch1)
           < tonePeriod r (periodLo ch2) (periodHi ch2))%Z ->
        osc_frequency (voice ch2 s') < osc_frequency (voice ch1 s')) /\
    bp_frequency (Noise s') = inject_Z (1000 + 200 * (reg r 6 mod 32)) /\
    1000 <= bp_frequency (Noise s') <= 7200.
Proof.
  destruct (applyRegs_inv s r now)
    as (fA & fB & fC & e & s' & _ & _ & _ & _ & Hs' & _ & _ & _ & _ & HN & _).
  exists s'. split; [exact Hs' |]. split; [| split; [| split]].
  - intros ch Hper.
    destruct (applyRegs_voice s s' r now ch Hs') as (f & Hf & Hosc).
    rewrite Hosc.
    pose proof (tonePeriod_range r (periodLo ch) (periodHi ch)) as Hr.
    assert (Hgt : (0 < tonePeriod r (periodLo ch) (periodHi ch))%Z) by lia.
    destruct (toneFreq_nonzero _ f Hgt Hf) as (Hmul & Hpos).
    assert (H1 : 1 <= inject_Z (tonePeriod r (periodLo ch) (periodHi ch)))
      by (unfold Qle, inject_Z; simpl; lia).
    assert (H2 : inject_Z (tonePeriod r (periodLo ch) (periodHi ch)) <= 4095)
      by (unfold Qle, inject_Z; simpl; lia).
    split; nra.
  - intros ch1 ch2 Hlt.
    destruct (applyRegs_voice s s' r now ch1 Hs') as (f1 & Hf1 & Hosc1).
    destruct (applyRegs_voice s s' r now ch2 Hs') as (f2 & Hf2 & Hosc2).
    rewrite Hosc1, Hosc2.
    assert (Hgt2 : (0 < tonePeriod r (periodLo ch2) (periodHi ch2))%Z) by lia.
    destruct (toneFreq_nonzero _ f1 (proj1 Hlt) Hf1) as (Hm1 & Hp1).
    destruct (toneFreq_nonzero _ f2 Hgt2 Hf2) as (Hm2 & Hp2).
    assert (H12 : inject_Z (tonePeriod r (periodLo ch1) (periodHi ch1))
                  < inject_Z (tonePeriod r (periodLo ch2) (periodHi ch2)))
      by (unfold Qlt, inject_Z; simpl; lia).
    destruct (toneFreq_value (tonePeriod r (periodLo ch2) (periodHi ch2)))
      as (f2' & Hf2' & Hf2pos & _); [lia |].
    assert (f2' = f2) by congruence. subst f2'.
    destruct (Qlt_le_dec f2 f1) as [Hdone | Hle]; [exact Hdone | exfalso].
    set (P1 := inject_Z (tonePeriod r (periodLo ch1) (periodHi ch1))) in *.
    set (P2 := inject_Z (tonePeriod r (periodLo ch2) (periodHi ch2))) in *.
    assert (Ha : f1 * P1 <= f2 * P1) by (apply Qmult_le_compat_r; lra).
    assert (Hb : f2 * P1 < f2 * P2) by (apply Qmult_lt_l; assumption).
    lra.
  - rewrite HN. cbn [bp_frequency]. rewrite land_31.
    f_equal. ring.
  - rewrite HN. cbn [bp_frequency]. rewrite land_31.
    pose proof (Z.mod_pos_bound (reg r 6) 32) as Hm.
    split; unfold Qle, inject_Z; simpl; lia.
Qed.

Lemma applied_frequency_ranges_witness :
  exists s',
    applyRegs newAYReplayer [x01; x00; x02; x00] 0 = Some s' /\
    osc_frequency (voice ChB s') < osc_frequency (voice ChA s') /\
    osc_frequency (voice ChA s') <= 62500.
Proof.
  destruct (applied_frequency_ranges newAYReplayer [x01; x00; x02; x00] 0)
    as (s' & Hs' & Hrange & Hmono & _).
  exists s'. split; [exact Hs' |]. split.
  - apply (Hmono ChA ChB). vm_compute. split; reflexivity.
  - apply (Hrange ChA). vm_compute. discriminate.
Defined.

(** ** The registers [applyRegs] reads *)

Lemma applyRegs_ext (s : AYReplayer) (r r' : list byte) (now : Q) :
  (forall i, (i < 14)%nat -> reg r' i = reg r i) ->
  applyRegs s r' now = applyRegs s r now.
Proof.
  intros H. unfold applyRegs, tonePeriod, envPeriodOf.
  rewrite (H 0%nat), (H 1%nat), (H 2%nat), (H 3%nat), (H 4%nat), (H 5%nat),
    (H 6%nat), (H 7%nat), (H 8%nat), (H 9%nat), (H 10%nat), (H 11%nat),
    (H 12%nat), (H 13%nat) by lia.
  reflexivity.
Qed.

Lemma reg_firstn (r : list byte) (n i : nat) :
  (i < n)%nat -> reg (firstn n r) i = reg r i.
Proof.
  intros H. unfold reg. rewrite nth_error_firstn.
  apply Nat.ltb_lt in H. rewrite H. reflexivity.
Qed.

Lemma reg_pad (r : list byte) (k i : nat) :
  reg (r ++ repeat x00 k) i = reg r i.
Proof.
  unfold reg. destruct (Nat.lt_ge_cases i (length r)) as [Hlt | Hge].
  - rewrite nth_error_app1 by exact Hlt. reflexivity.
  - rewrite nth_error_app2 by exact Hge.
    rewrite (proj2 (nth_error_None r i)) by exact Hge.
    destruct (nth_error (repeat x00 k) (i - length r)) as [b |] eqn:E;
      [| reflexivity].
    apply nth_error_In, repeat_spec in E. subst b. reflexivity.
Qed.

(** X8. [applyRegs] reads the registers 0 to 13 and nothing else: two
    frames that agree there give the same result, so a frame of 16 bytes,
    as [parseYM] cuts them, behaves as its first 14, and a frame that is
    too short behaves as if padded with zero registers. *)
Theorem applyRegs_reads_14_registers (s : AYReplayer) (r : list byte)
  (now : Q) :
  (forall r', (forall i, (i < 14)%nat -> reg r' i = reg r i) ->
              applyRegs s r' now = applyRegs s r now) /\
  applyRegs s (firstn 14 r) now = applyRegs s r now /\
  (forall k, applyRegs s (r ++ repeat x00 k) now = applyRegs s r now).
Proof.
  split; [| split].
  - intros r' H. apply applyRegs_ext. exact H.
  - apply applyRegs_ext. intros i Hi. apply reg_firstn. exact Hi.
  - intros k. apply applyRegs_ext. intros i _. apply reg_pad.
Qed.

Lemma applyRegs_reads_14_registers_witness :
  applyRegs newAYReplayer (frameToneA ++ [xff; xff]) 0
    = applyRegs newAYReplayer frameToneA 0.
Proof.
  apply (proj1 (applyRegs_reads_14_registers newAYReplayer frameToneA 0)).
  intros i Hi.
  do 14 (destruct i as [| i]; [reflexivity |]). lia.
Defined.

(** ** The envelope along the frames *)

Lemma inject_Z_apart (k k' : Z) :
  k <> k' -> 1 <= inject_Z k - inject_Z k' \/ 1 <= inject_Z k' - inject_Z k.
Proof.
  intros Hne.
  destruct (Z.lt_trichotomy k k') as [H | [H | H]]; [right | contradiction | left];
    unfold Qle, Qminus, Qplus, Qopp, inject_Z; simpl; lia.
Qed.

(** Two derived periods within the tolerance of each other come from the
    same register value. *)
Lemma derived_periods_apart (k k' : Z) :
  Qabs (periodSecOf k - periodSecOf k') <= (1 # 1000000) -> k = k'.
Proof.
  intros H. apply Qabs_Qle_condition in H.
  rewrite !periodSecOf_value in H.
  destruct (Z.eq_dec k k') as [E | Hne]; [exact E | exfalso].
  destruct (inject_Z_apart k k' Hne); lra.
Qed.

(** X9. After every call of [applyRegs] the envelope follows the frame:
    its shape is the low nibble of register 13, its update time is the
    clock value, and its period is within 0.000001 of the period derived
    from registers 11 and 12.  When the stored period was itself derived
    from a register value, it is afterwards exactly the derived period of
    the frame, and a frame with another register value always re-triggers
    the envelope: the tolerance never takes two register values for one. *)
Theorem envelope_follows_frame (s : AYReplayer) (r : list byte) (now : Q) :
  exists s',
    applyRegs s r now = Some s' /\
    shape (env s') = Z.land (reg r 13) 15 /\
    lastUpdate (env s') = now /\
    Qabs (periodSec (env s') - periodSecOf (envPeriodOf r)) <= (1 # 1000000) /\
    (forall k,
        periodSec (env s) == periodSecOf k ->
        periodSec (env s') == periodSecOf (envPeriodOf r) /\
        (k <> envPeriodOf r -> phase (env s') = 0 /\ level (env s') = 1)).
Proof.
  destruct (applyRegs_total s r now) as (s' & Hs').
  pose proof (applyRegs_env s s' r now Hs') as He.
  exists s'. split; [exact Hs' |].
  destruct (envChanged (env s) (Z.land (reg r 13) 15)
              (periodSecOf (envPeriodOf r))) eqn:Hch.
  - rewrite (envStep_reset _ _ _ _ Hch) in He. injection He as He.
    rewrite <- He. cbn [shape lastUpdate periodSec phase level].
    split; [reflexivity |]. split; [reflexivity |]. split.
    + apply Qabs_Qle_condition. split; lra.
    + intros k _. split; [reflexivity | intros _; split; reflexivity].
  - destruct (envStep_advance _ _ _ now Hch (periodSecOf_lower r))
      as (e' & He' & Hsh & Hper & Hlu & _).
    assert (e' = env s') by congruence. subst e'.
    pose proof Hch as Hsame. apply envChanged_false in Hsame.
    destruct Hsame as (Hshape & Htol).
    rewrite Hsh, Hper, Hlu.
    split; [symmetry; exact Hshape |]. split; [reflexivity |].
    split; [exact Htol |].
    intros k Hk.
    assert (Hkk : k = envPeriodOf r).
    { apply derived_periods_apart. rewrite <- Hk. exact Htol. }
    split; [rewrite Hk, Hkk; reflexivity | intros Hne; contradiction].
Qed.

Lemma envelope_follows_frame_witness :
  exists s',
    applyRegs settled [x00; x00; x00; x00; x00; x00; x00; x00; x00; x00; x00;
                       x02] 2 = Some s' /\
    phase (env s') = 0 /\ level (env s') = 1.
Proof.
  destruct (envelope_follows_frame settled
              [x00; x00; x00; x00; x00; x00; x00; x00; x00; x00; x00; x02] 2)
    as (s' & Hs' & _ & _ & _ & Hk).
  exists s'. split; [exact Hs' |].
  apply (Hk 1%Z); [reflexivity | vm_compute; discriminate].
Defined.

(** X10. Whatever the first frame holds, it re-triggers the envelope of a
    replayer that still has the envelope of the constructor: the period
    0.05 s set there is not within the tolerance of any period that
    registers 11 and 12 can give. *)
Theorem first_frame_retriggers (s : AYReplayer) (r : list byte) (now : Q) :
  env s = env newAYReplayer ->
  exists s',
    applyRegs s r now = Some s' /\
    env s' = {| periodSec := periodSecOf (envPeriodOf r);
                shape := Z.land (reg r 13) 15;
                phase := 0; level := 1; lastUpdate := now |}.
Proof.
  intros Henv.
  destruct (applyRegs_total s r now) as (s' & Hs').
  pose proof (applyRegs_env s s' r now Hs') as He.
  exists s'. split; [exact Hs' |].
  assert (Hch : envChanged (env s) (Z.land (reg r 13) 15)
                  (periodSecOf (envPeriodOf r)) = true).
  { apply envChanged_true. right. rewrite Henv. cbn [env newAYReplayer periodSec].
    rewrite periodSecOf_value.
    set (k := envPeriodOf r).
    pose proof (Qle_Qabs ((5 # 100) - inject_Z k * (32 # 1000000))) as H1.
    pose proof (Qle_Qabs (- ((5 # 100) - inject_Z k * (32 # 1000000)))) as H2.
    rewrite Qabs_opp in H2.
    destruct (Z_le_gt_dec k 1562) as [Hlow | Hhigh].
    - assert (inject_Z k <= 1562) by (unfold Qle, inject_Z; simpl; lia). lra.
    - assert (1563 <= inject_Z k) by (unfold Qle, inject_Z; simpl; lia). lra. }
  rewrite (envStep_reset _ _ _ _ Hch) in He. congruence.
Qed.

Lemma first_frame_retriggers_witness :
  exists s',
    applyRegs (setUserControls loaded (onlyVolA (1 # 2))) frameToneA 3 = Some s' /\
    level (env s') = 1.
Proof.
  destruct (first_frame_retriggers (setUserControls loaded (onlyVolA (1 # 2)))
              frameToneA 3 eq_refl) as (s' & Hs' & He).
  exists s'. split; [exact Hs' |]. rewrite He. reflexivity.
Defined.

(** ** The waves of [envelopeLevel] *)

Lemma envelopeLevel_bits (phase : Q) (sh : Z) :
  envelopeLevel phase sh =
    let p := Num.rem1 phase in
    let lvl :=
      if negb (Z.testbit sh 1) && negb (Z.testbit sh 0) && Z.testbit sh 2 then p
      else if negb (Z.testbit sh 1) && Z.testbit sh 0 && Z.testbit sh 2
           then Num.min 1 (p * 2)
      else if Z.testbit sh 1 && negb (Z.testbit sh 0)
           then (if Num.ltb p (1 # 2) then p * 2 else 1 - (p - (1 # 2)) * 2)
      else 1 - p in
    Num.max 0 (Num.min 1 lvl).
Proof.
  assert (H4 : (Z.land sh 4 =? 0)%Z = negb (Z.testbit sh 2))
    by (apply (land_pow2_testbit sh 2); lia).
  assert (H2 : (Z.land sh 2 =? 0)%Z = negb (Z.testbit sh 1))
    by (apply (land_pow2_testbit sh 1); lia).
  assert (H1 : (Z.land sh 1 =? 0)%Z = negb (Z.testbit sh 0))
    by (apply (land_pow2_testbit sh 0); lia).
  unfold envelopeLevel. cbv zeta.
  rewrite H4, H2, H1, !negb_involutive. reflexivity.
Qed.

Lemma levelOfFraction_compat (p q : Q) (sh : Z) :
  p == q -> levelOfFraction p sh == levelOfFraction q sh.
Proof.
  intros E. pose proof (levelOfFraction_lipschitz p q sh) as H.
  assert (E0 : p - q == 0) by lra.
  rewrite E0 in H. change (Qabs 0) with 0 in H.
  apply Qabs_Qle_condition in H. lra.
Qed.

Lemma trunc_floor (x : Q) : 0 <= x -> Num.trunc x = Qfloor x.
Proof.
  destruct x as [n d]. unfold Num.trunc, Qfloor, Qle. simpl. intros H.
  apply Z.quot_div_nonneg; lia.
Qed.

Lemma floor_unique (x : Q) (z : Z) :
  inject_Z z <= x -> x < inject_Z (z + 1) -> Qfloor x = z.
Proof.
  intros Hlo Hhi.
  pose proof (Qfloor_le x) as H1. pose proof (Qlt_floor x) as H2.
  assert (A1 : inject_Z (Qfloor x) < inject_Z (z + 1)) by lra.
  assert (A2 : inject_Z z < inject_Z (Qfloor x + 1)) by lra.
  rewrite <- Zlt_Qlt in A1, A2. lia.
Qed.

Lemma rem1_succ (x : Q) : 0 <= x -> Num.rem1 (x + 1) == Num.rem1 x.
Proof.
  intros Hx.
  pose proof (rem1_trunc x) as H0. pose proof (rem1_trunc (x + 1)) as H1.
  rewrite trunc_floor in H0 by exact Hx.
  rewrite trunc_floor in H1 by lra.
  assert (Hf : Qfloor (x + 1) = (Qfloor x + 1)%Z).
  { apply floor_unique.
    - rewrite inject_Z_plus. pose proof (Qfloor_le x). change (inject_Z 1) with 1. lra.
    - rewrite !inject_Z_plus. pose proof (Qlt_floor x) as H.
      rewrite inject_Z_plus in H. change (inject_Z 1) with 1 in *. lra. }
  rewrite Hf, inject_Z_plus in H1. change (inject_Z 1) with 1 in H1. lra.
Qed.

(** X11. For every shape the level repeats with every unit of the phase
    (every envelope period): the shape with Hold rises to 1 over half a
    period, stays there for the other half, and starts again from 0 with
    the next period; no shape holds its last level across periods. *)
Theorem envelopeLevel_periodic (phase : Q) (sh : Z) :
  0 <= phase ->
  envelopeLevel (phase + 1) sh == envelopeLevel phase sh /\
  (Z.testbit sh 2 = true -> Z.testbit sh 1 = false -> Z.testbit sh 0 = true ->
   (inject_Z (Num.trunc phase) + (1 # 2) <= phase ->
    envelopeLevel phase sh == 1) /\
   envelopeLevel (inject_Z (Num.trunc phase)) sh == 0).
Proof.
  intros Hph. split.
  - rewrite !envelopeLevel_fraction. apply levelOfFraction_compat.
    apply rem1_succ. exact Hph.
  - intros HA HAlt HHold. split.
    + intros Hhalf. rewrite envelopeLevel_bits. cbv zeta.
      rewrite HA, HAlt, HHold. cbn [negb andb].
      pose proof (rem1_trunc phase) as Ht. pose proof (rem1_lt_1 phase) as Hlt.
      apply Qabs_Qlt_condition in Hlt.
      unfold Num.max, Num.min. split_cmp; lra.
    + rewrite envelopeLevel_bits. cbv zeta.
      rewrite HA, HAlt, HHold. cbn [negb andb].
      assert (E : Num.rem1 (inject_Z (Num.trunc phase)) = 0).
      { unfold Num.rem1, inject_Z. cbn [Qnum Qden]. rewrite Z.rem_1_r. reflexivity. }
      rewrite E. reflexivity.
Qed.

Lemma envelopeLevel_periodic_witness :
  envelopeLevel ((3 # 4) + 1) 5 == envelopeLevel (3 # 4) 5 /\
  envelopeLevel (3 # 4) 5 == 1.
Proof.
  assert (H : 0 <= (3 # 4)) by discriminate.
  destruct (envelopeLevel_periodic (3 # 4) 5 H) as (Hper & Hhold).
  split; [exact Hper |].
  apply Hhold; reflexivity || discriminate.
Defined.

(** X12. The level depends on the bits 0 (Hold), 1 (Alternate) and 2
    (Attack) of the shape only: the bit 3 (Continue) is computed and never
    used, so the shapes [sh] and [sh xor 8] give the same wave. *)
Theorem envelopeLevel_ignores_continue (phase : Q) (sh sh' : Z) :
  (Z.testbit sh 0 = Z.testbit sh' 0 -> Z.testbit sh 1 = Z.testbit sh' 1 ->
   Z.testbit sh 2 = Z.testbit sh' 2 ->
   envelopeLevel phase sh = envelopeLevel phase sh') /\
  envelopeLevel phase (Z.lxor sh 8) = envelopeLevel phase sh.
Proof.
  assert (H : Z.testbit sh 0 = Z.testbit sh' 0 -> Z.testbit sh 1 = Z.testbit sh' 1 ->
              Z.testbit sh 2 = Z.testbit sh' 2 ->
              envelopeLevel phase sh = envelopeLevel phase sh').
  { intros H0 H1 H2. rewrite !envelopeLevel_bits. cbv zeta.
    rewrite H0, H1, H2. reflexivity. }
  split; [exact H |].
  rewrite !envelopeLevel_bits. cbv zeta.
  rewrite !Z.lxor_spec. cbn [Z.testbit Pos.testbit Z.of_N xorb].
  rewrite !xorb_false_r. reflexivity.
Qed.

Lemma envelopeLevel_ignores_continue_witness :
  envelopeLevel (1 # 3) 12 = envelopeLevel (1 # 3) 4.
Proof.
  apply (proj1 (envelopeLevel_ignores_continue (1 # 3) 12 4)); reflexivity.
Defined.

(** X13. Within one period (phases of the same integer part, not negative)
    the waves run as their names say: with Attack and without Alternate
    the level never falls as the phase grows, and without Hold it is the
    fraction of the phase itself, below 1; with Alternate and without Hold
    it rises up to the half period and falls after it; for all other
    shapes it never rises. *)
Theorem waves_within_a_period (p q : Q) (sh : Z) :
  0 <= p -> p <= q -> Num.trunc p = Num.trunc q ->
  (Z.testbit sh 2 = true -> Z.testbit sh 1 = false ->
   envelopeLevel p sh <= envelopeLevel q sh /\
   (Z.testbit sh 0 = false ->
    envelopeLevel p sh == Num.rem1 p /\ envelopeLevel p sh < 1)) /\
  (Z.testbit sh 1 = true -> Z.testbit sh 0 = false ->
   (Num.rem1 q <= (1 # 2) -> envelopeLevel p sh <= envelopeLevel q sh) /\
   ((1 # 2) <= Num.rem1 p -> envelopeLevel q sh <= envelopeLevel p sh)) /\
  ((Z.testbit sh 2 = false /\ Z.testbit sh 1 = false) \/
   (Z.testbit sh 1 = true /\ Z.testbit sh 0 = true) ->
   envelopeLevel q sh <= envelopeLevel p sh).
Proof.
  intros Hp Hpq Ht.
  pose proof (rem1_trunc p) as Ep. pose proof (rem1_trunc q) as Eq.
  rewrite Ht in Ep.
  pose proof (rem1_sign_nonneg p Hp) as Hp0.
  pose proof (rem1_lt_1 p) as Hp1. apply Qabs_Qlt_condition in Hp1.
  pose proof (rem1_lt_1 q) as Hq1. apply Qabs_Qlt_condition in Hq1.
  assert (Hrem : Num.rem1 p <= Num.rem1 q) by lra.
  rewrite !envelopeLevel_bits. cbv zeta.
  remember (Num.rem1 p) as x eqn:Hx. remember (Num.rem1 q) as y eqn:Hy.
  clear Hx Hy Ep Eq.
  split; [| split].
  - intros HA HAlt. rewrite HA, HAlt. cbn [negb andb]. split.
    + destruct (Z.testbit sh 0); cbn [negb andb];
        unfold Num.max, Num.min; split_cmp; lra.
    + intros HHold. rewrite HHold. cbn [negb andb].
      unfold Num.max, Num.min. split; split_cmp; lra.
  - intros HAlt HHold. rewrite HAlt, HHold. cbn [negb andb].
    split; intros Hhalf; unfold Num.max, Num.min; split_cmp; lra.
  - intros [[HA HAlt] | [HAlt HHold]].
    + rewrite HA, HAlt. cbn [negb andb]. rewrite !andb_false_r.
      unfold Num.max, Num.min; split_cmp; lra.
    + rewrite HAlt, HHold. cbn [negb andb].
      unfold Num.max, Num.min; split_cmp; lra.
Qed.

Lemma waves_within_a_period_witness :
  envelopeLevel (1 # 4) 4 <= envelopeLevel (3 # 4) 4 /\
  envelopeLevel (3 # 4) 0 <= envelopeLevel (1 # 4) 0.
Proof.
  assert (H0 : 0 <= (1 # 4)) by discriminate.
  assert (H1 : (1 # 4) <= (3 # 4)) by discriminate.
  destruct (waves_within_a_period (1 # 4) (3 # 4) 4 H0 H1 eq_refl)
    as (Hup & _ & _).
  destruct (waves_within_a_period (1 # 4) (3 # 4) 0 H0 H1 eq_refl)
    as (_ & _ & Hdown).
  split; [apply Hup; reflexivity | apply Hdown; left; split; reflexivity].
Defined.

(** ** The lookahead scheduler under any clock *)

Section SchedulerSafety.

Variable currentTime : nat -> Q.
Variables (fs : list Frame) (spf t0 : Q) (tr0 : list Event).

Local Abbreviation progress := (Progress fs spf t0 tr0).

Lemma progress_tick (p : Page) : progress p -> progress (tick p).
Proof. intros [H1 H2 H3 H4 H5 H6]. constructor; assumption. Qed.

Lemma progress_applied (p : Page) (f : Frame) (rp : AYReplayer) :
  progress p -> isLive (lookaheadId p) = true ->
  nth_error fs (frameIdx p) = Some f ->
  progress (applied p f rp).
Proof.
  intros [H1 H2 H3 H4 H5 H6] Hlive Hf.
  assert (Hlt : (frameIdx p < length fs)%nat).
  { apply nth_error_Some. rewrite Hf. discriminate. }
  rewrite Hlive in H5.
  constructor; unfold applied;
    cbn [lookaheadId cb_frames cb_spf frameIdx nextTime trace];
    try assumption.
  - rewrite H4, H2, inject_nat_succ. ring.
  - rewrite Hlive, H5, (firstn_snoc _ _ _ Hf), applyEvents_app, !app_nil_r,
      <- app_assoc.
    cbn [applyEvents Nat.add].
    rewrite length_firstn, Nat.min_l by lia. reflexivity.
  - intros Hdead. rewrite Hlive in Hdead. discriminate.
Qed.

Lemma progress_stop (p : Page) :
  progress p -> isLive (lookaheadId p) = true ->
  (length fs <= frameIdx p)%nat ->
  progress (stopFrames p) /\ lookaheadId (stopFrames p) = None.
Proof.
  intros [H1 H2 H3 H4 H5 H6] Hlive Hge. unfold stopFrames. rewrite Hlive.
  rewrite Hlive in H5. split; [| reflexivity].
  constructor; cbn [lookaheadId cb_frames cb_spf frameIdx nextTime trace isLive];
    try assumption.
  - rewrite H5, !app_nil_r, <- app_assoc. reflexivity.
  - intros _. lia.
Qed.

(** A wake-up returns, keeps the invariant, and, when it leaves the
    scheduler playing, leaves the next tick at or beyond the lead window
    of the clock value its last test read. *)
Lemma lookahead_safe (fuel : nat) (p : Page) :
  progress p -> isLive (lookaheadId p) = true ->
  (length fs - frameIdx p < fuel)%nat ->
  exists p',
    lookahead currentTime fuel p = Some p' /\
    progress p' /\
    (isLive (lookaheadId p') = true ->
     (0 < reads p')%nat /\
     currentTime (pred (reads p')) + ahead <= nextTime p').
Proof.
  revert p. induction fuel as [| fuel IH]; intros p Hp Hlive Hfuel; [lia |].
  cbn [lookahead].
  pose proof (progress_tick p Hp) as Hpt.
  destruct (Num.ltb (nextTime (tick p)) (currentTime (reads p) + ahead))
    eqn:Hlt.
  - destruct (length (cb_frames (tick p)) <=? frameIdx (tick p))%nat eqn:Hend.
    + apply Nat.leb_le in Hend. rewrite (pg_frames Hpt) in Hend.
      destruct (progress_stop _ Hpt Hlive Hend) as (Hps & Hnone).
      exists (stopFrames (tick p)). split; [reflexivity |].
      split; [exact Hps |]. rewrite Hnone. discriminate.
    + apply Nat.leb_gt in Hend. rewrite (pg_frames Hpt) in Hend.
      rewrite (pg_frames Hpt).
      destruct (nth_error fs (frameIdx (tick p))) as [f |] eqn:Hf;
        [| apply nth_error_None in Hf; lia].
      destruct (applyRegs_total (replayer (tick p)) (regs f)
                  (currentTime (reads (tick p)))) as (rp & Hrp).
      rewrite Hrp. cbn [bind].
      apply IH; [exact (progress_applied _ f rp Hpt Hlive Hf) | exact Hlive |].
      simpl. simpl in Hend. lia.
  - exists (tick p). split; [reflexivity |].
    split; [exact Hpt |]. intros _. split; [simpl; lia |].
    apply ltb_false in Hlt. simpl in Hlt |- *. exact Hlt.
Qed.

Lemma wake_safe (p : Page) :
  progress p -> isLive (lookaheadId p) = true ->
  exists p',
    wake currentTime p = Some p' /\
    progress p' /\
    (isLive (lookaheadId p') = true ->
     (0 < reads p')%nat /\
     currentTime (pred (reads p')) + ahead <= nextTime p').
Proof.
  intros Hp Hlive. unfold wake. apply lookahead_safe; [exact Hp | exact Hlive |].
  rewrite (pg_frames Hp). lia.
Qed.

Lemma run_safe (m : nat) (p : Page) :
  progress p ->
  exists p', run currentTime m p = Some p' /\ progress p'.
Proof.
  revert p. induction m as [| m IH]; intros p Hp;
    [exists p; split; [reflexivity | exact Hp] |].
  cbn [run]. destruct (isLive (lookaheadId p)) eqn:Hlive.
  - destruct (wake_safe p Hp Hlive) as (p1 & Hw & Hp1 & _).
    rewrite Hw. cbn [bind]. apply IH. exact Hp1.
  - exists p. split; [reflexivity | exact Hp].
Qed.

End SchedulerSafety.

Lemma startFrames_progress (currentTime : nat -> Q) (p0 : Page)
  (fs : list Frame) (R : Q) :
  ~ R == 0 ->
  exists p1,
    startFrames currentTime p0 fs (Some R) = Some p1 /\
    isLive (lookaheadId p1) = true /\
    Progress fs (1 / R) (currentTime (reads p0))
      (trace p0 ++ (if isLive (lookaheadId p0) then [EvStop] else [])) p1.
Proof.
  intros HR.
  set (q0 := stopFrames p0).
  assert (Hreads : reads q0 = reads p0).
  { unfold q0, stopFrames. destruct (isLive (lookaheadId p0)); reflexivity. }
  assert (Htr : trace q0
                = trace p0 ++ (if isLive (lookaheadId p0) then [EvStop] else [])).
  { unfold q0, stopFrames. destruct (isLive (lookaheadId p0)); cbn [trace];
      [reflexivity | rewrite app_nil_r; reflexivity]. }
  eexists. split; [| split].
  - unfold startFrames. fold q0. rewrite div_some by exact HR. reflexivity.
  - reflexivity.
  - constructor; cbn; try reflexivity.
    + lia.
    + rewrite Hreads. ring.
    + rewrite Htr, !app_nil_r. reflexivity.
    + discriminate.
Qed.



(** X15. A wake-up of the scheduler never ends with a tick still due: when
    it leaves the scheduler playing, the next tick lies at or beyond the
    clock value read by its last test plus the lead window of 0.08 s.  It
    catches up every tick that is due, however late the wake-up comes. *)
Theorem wake_catches_up (currentTime : nat -> Q) (p0 : Page)
  (fs : list Frame) (R : Q) (m : nat) :
  ~ R == 0 ->
  exists p1 p,
    startFrames currentTime p0 fs (Some R) = Some p1 /\
    run currentTime m p1 = Some p /\
    (lookaheadId p <> None ->
     exists p',
       wake currentTime p = Some p' /\
       (lookaheadId p' <> None ->
        (0 < reads p')%nat /\
        currentTime (pred (reads p')) + ahead <= nextTime p')).
Proof.
  intros HR.
  destruct (startFrames_progress currentTime p0 fs R HR) as (p1 & Hstart & _ & Hp1).
  destruct (run_safe currentTime fs _ _ _ m p1 Hp1) as (p & Hrun & Hp).
  exists p1, p. split; [exact Hstart |]. split; [exact Hrun |].
  intros Hlive.
  assert (Hl : isLive (lookaheadId p) = true)
    by (destruct (lookaheadId p); [reflexivity | contradiction]).
  destruct (wake_safe currentTime fs _ _ _ p Hp Hl) as (p' & Hw & _ & Hlead).
  exists p'. split; [exact Hw |].
  intros Hlive'. apply Hlead.
  destruct (lookaheadId p'); [reflexivity | contradiction].
Qed.

(** Under a clock that stands at 0, the first wake-up after [startFrames]
    applies four of five frames and leaves the scheduler playing with the
    next tick at 0.08; the second wake-up finds no tick due and leaves the
    scheduler playing, the next tick at the end of the lead window. *)
Lemma wake_catches_up_witness :
  exists p1 p p',
    startFrames (fun _ => 0) newPage fiveFrames (Some 50) = Some p1 /\
    run (fun _ => 0) 1 p1 = Some p /\
    frameIdx p = 4%nat /\ lookaheadId p <> None /\
    wake (fun _ => 0) p = Some p' /\
    lookaheadId p' <> None /\
    (0 < reads p')%nat /\
    0 + ahead <= nextTime p'.
Proof.
  assert (HR : ~ 50 == 0) by discriminate.
  destruct (wake_catches_up (fun _ => 0) newPage fiveFrames 50 1 HR)
    as (p1 & p & Hstart & Hrun & Hwake).
  exists p1, p.
  assert (Hp : frameIdx p = 4%nat /\ lookaheadId p <> None).
  { pose proof Hstart as Hc. vm_compute in Hc. injection Hc as Hc.
    pose proof Hrun as Hd. rewrite <- Hc in Hd. vm_compute in Hd.
    injection Hd as Hd. rewrite <- Hd. split; [reflexivity | discriminate]. }
  destruct Hp as (Hidx & Hlive).
  destruct (Hwake Hlive) as (p' & Hw & Hlead).
  assert (Hlive' : lookaheadId p' <> None).
  { pose proof Hstart as Hc. vm_compute in Hc. injection Hc as Hc.
    pose proof Hrun as Hd. rewrite <- Hc in Hd. vm_compute in Hd.
    injection Hd as Hd.
    pose proof Hw as Hx. rewrite <- Hd in Hx. vm_compute in Hx.
    injection Hx as Hx. rewrite <- Hx. discriminate. }
  exists p'. split; [exact Hstart |]. split; [exact Hrun |].
  split; [exact Hidx |]. split; [exact Hlive |]. split; [exact Hw |].
  split; [exact Hlive' |]. exact (Hlead Hlive').
Defined.

(** ** [parseYM]: frame count and frames *)

Local Open Scope Z_scope.

Lemma toInt32_small (z : Z) : - 2 ^ 31 <= z < 2 ^ 31 -> toInt32 z = z.
Proof.
  intros H. unfold toInt32. rewrite Z.mod_small; lia.
Qed.

Lemma toInt32_wrap (z : Z) : 2 ^ 31 <= z < 2 ^ 32 -> toInt32 z = z - 2 ^ 32.
Proof.
  intros H. unfold toInt32.
  replace (z + 2 ^ 31) with (z + 2 ^ 31 - 2 ^ 32 + 1 * 2 ^ 32) by ring.
  rewrite Z.mod_add by lia. rewrite Z.mod_small; lia.
Qed.

Lemma lor_mul_add (a lo n : Z) :
  0 <= n -> 0 <= lo < 2 ^ n -> Z.lor (a * 2 ^ n) lo = a * 2 ^ n + lo.
Proof.
  intros Hn Hlo. rewrite <- Z.shiftl_mul_pow2 by exact Hn.
  rewrite lor_shiftl_add by assumption.
  rewrite Z.shiftl_mul_pow2 by exact Hn. reflexivity.
Qed.

(** The frame count of the header: the bytes 4 to 7, big-endian, as a
    signed 32-bit integer. *)
Lemma ym_frame_count (bytes : list byte) :
  let v := reg bytes 4 * 2 ^ 24 + reg bytes 5 * 2 ^ 16 + reg bytes 6 * 2 ^ 8
           + reg bytes 7 in
  Z.lor (Z.lor (Z.lor (shl32 (reg bytes 4) 24) (shl32 (reg bytes 5) 16))
               (shl32 (reg bytes 6) 8))
        (reg bytes 7)
    = if reg bytes 4 <? 128 then v else v - 2 ^ 32.
Proof.
  intros v. unfold v.
  pose proof (reg_range bytes 4) as H4. pose proof (reg_range bytes 5) as H5.
  pose proof (reg_range bytes 6) as H6. pose proof (reg_range bytes 7) as H7.
  unfold shl32. rewrite !Z.shiftl_mul_pow2 by lia.
  rewrite (toInt32_small (reg bytes 5 * 2 ^ 16)) by lia.
  rewrite (toInt32_small (reg bytes 6 * 2 ^ 8)) by lia.
  assert (Hhi : exists a,
             toInt32 (reg bytes 4 * 2 ^ 24) = a * 2 ^ 24 /\
             a = if reg bytes 4 <? 128 then reg bytes 4 else reg bytes 4 - 256).
  { destruct (Z.ltb_spec (reg bytes 4) 128) as [Hlt | Hge].
    - exists (reg bytes 4). split; [apply toInt32_small; lia | reflexivity].
    - exists (reg bytes 4 - 256). split; [rewrite toInt32_wrap; lia | reflexivity]. }
  destruct Hhi as (a & -> & Ha).
  rewrite (lor_mul_add a (reg bytes 5 * 2 ^ 16) 24) by lia.
  replace (a * 2 ^ 24 + reg bytes 5 * 2 ^ 16)
    with ((a * 2 ^ 8 + reg bytes 5) * 2 ^ 16) by ring.
  rewrite (lor_mul_add _ (reg bytes 6 * 2 ^ 8) 16) by lia.
  replace ((a * 2 ^ 8 + reg bytes 5) * 2 ^ 16 + reg bytes 6 * 2 ^ 8)
    with (((a * 2 ^ 8 + reg bytes 5) * 2 ^ 8 + reg bytes 6) * 2 ^ 8) by ring.
  rewrite (lor_mul_add _ (reg bytes 7) 8) by lia.
  rewrite Ha. destruct (reg bytes 4 <? 128); ring.
Qed.

Lemma parseYM_supported (bytes : list byte) :
  includes supportedTags (tagOf bytes) = true ->
  let n := Z.lor (Z.lor (Z.lor (shl32 (reg bytes 4) 24) (shl32 (reg bytes 5) 16))
                        (shl32 (reg bytes 6) 8))
                 (reg bytes 7) in
  let offset := if Z.of_nat (length bytes) <? 64 + n * 16 then 16 else 64 in
  parseYM bytes =
    inr {| meta := {| version := tagOf bytes; meta_frames := n; meta_rate := 50 |};
           parsed_frames :=
             map (fun f : nat =>
                    mkFrame (firstn 16 (skipn (Z.to_nat (offset + Z.of_nat f * 16))
                                              bytes)))
                 (seq 0 (Z.to_nat n)) |}.
Proof.
  intros Htag n offset. unfold parseYM. cbv zeta. rewrite Htag. cbn [negb].
  fold n. unfold regsPerFrame. fold offset.
  do 2 f_equal. apply map_ext. intros f. unfold slice.
  do 2 f_equal. lia.
Qed.

(** X16. The header of a file with a supported tag: the frame count is the
    bytes 4 to 7 read big-endian as a signed 32-bit integer, so a count
    byte 4 of 128 or more gives a negative count and a track without
    frames; the track has as many frames as a non-negative count says;
    and the rate is 50 whatever the file holds. *)
Theorem parseYM_header (bytes : list byte) :
  includes supportedTags (tagOf bytes) = true ->
  exists y,
    parseYM bytes = inr y /\
    (let v := reg bytes 4 * 2 ^ 24 + reg bytes 5 * 2 ^ 16 + reg bytes 6 * 2 ^ 8
              + reg bytes 7 in
     meta_frames (meta y) = if reg bytes 4 <? 128 then v else v - 2 ^ 32) /\
    (reg bytes 4 < 128 ->
     Z.of_nat (length (parsed_frames y)) = meta_frames (meta y)) /\
    (128 <= reg bytes 4 ->
     meta_frames (meta y) < 0 /\ parsed_frames y = []) /\
    meta_rate (meta y) = 50%Q.
Proof.
  intros Htag. rewrite (parseYM_supported bytes Htag).
  eexists. split; [reflexivity |].
  cbn [meta meta_frames meta_rate parsed_frames].
  pose proof (ym_frame_count bytes) as Hn. cbv zeta in Hn. rewrite Hn.
  pose proof (reg_range bytes 4) as H4. pose proof (reg_range bytes 5) as H5.
  pose proof (reg_range bytes 6) as H6. pose proof (reg_range bytes 7) as H7.
  split; [reflexivity |]. split; [| split; [| reflexivity]].
  - intros Hlt. rewrite length_map, length_seq.
    apply Z.ltb_lt in Hlt. rewrite Hlt. rewrite Z2Nat.id; lia.
  - intros Hge. apply Z.ltb_ge in Hge. rewrite Hge.
    split; [lia |].
    replace (Z.to_nat _) with 0%nat by lia. reflexivity.
Qed.

Lemma parseYM_header_witness :
  exists y,
    parseYM truncatedYM = inr y /\
    Z.of_nat (length (parsed_frames y)) = meta_frames (meta y).
Proof.
  destruct (parseYM_header truncatedYM eq_refl) as (y & Hy & _ & Hlen & _).
  exists y. split; [exact Hy |]. apply Hlen. reflexivity.
Defined.

Lemma firstn_add (X : Type) (a b : nat) (l : list X) :
  firstn (a + b) l = firstn a l ++ firstn b (skipn a l).
Proof.
  revert l. induction a as [| a IH]; intros l; [reflexivity |].
  destruct l as [| x l]; [simpl; rewrite firstn_nil; reflexivity |].
  simpl. f_equal. apply IH.
Qed.

(** Cutting [n] consecutive pieces of 16 bytes from an offset gives back
    the bytes from that offset, in order. *)
Lemma cut_frames_concat (bytes : list byte) (off n : nat) :
  concat (map (fun f : nat => firstn 16 (skipn (off + f * 16) bytes)) (seq 0 n))
    = firstn (n * 16) (skipn off bytes).
Proof.
  induction n as [| n IH]; [reflexivity |].
  rewrite seq_S, map_app, concat_app, IH. cbn [map concat Nat.add].
  rewrite app_nil_r.
  replace (S n * 16)%nat with (n * 16 + 16)%nat by lia.
  rewrite firstn_add, skipn_skipn.
  do 3 f_equal. lia.
Qed.

(** X17. The frames of a parsed file tile its data: one after the other,
    their registers are the bytes of the file from the data offset on, in
    order, with no byte left out or taken twice, up to 16 bytes per frame.
    The data offset is 64 when the file holds 16 bytes for each declared
    frame after byte 64, and 16 otherwise.  In the first case every frame
    has exactly 16 registers. *)
Theorem parseYM_frames_tile_data (bytes : list byte) :
  includes supportedTags (tagOf bytes) = true ->
  exists y,
    parseYM bytes = inr y /\
    let n := meta_frames (meta y) in
    let off := if Z.of_nat (length bytes) <? 64 + n * 16 then 16%nat else 64%nat in
    concat (map regs (parsed_frames y))
      = firstn (Z.to_nat n * 16) (skipn off bytes) /\
    (forall fr, In fr (parsed_frames y) -> (length (regs fr) <= 16)%nat) /\
    (64 + n * 16 <= Z.of_nat (length bytes) ->
     forall fr, In fr (parsed_frames y) -> length (regs fr) = 16%nat).
Proof.
  intros Htag. rewrite (parseYM_supported bytes Htag).
  eexists. split; [reflexivity |].
  cbn [meta meta_frames parsed_frames].
  set (n := Z.lor _ _).
  set (offz := if Z.of_nat (length bytes) <? 64 + n * 16 then 16 else 64).
  set (off := if Z.of_nat (length bytes) <? 64 + n * 16 then 16%nat else 64%nat).
  assert (Hoff : offz = Z.of_nat off)
    by (unfold offz, off; destruct (_ <? _); reflexivity).
  assert (Hstart : forall f : nat,
             Z.to_nat (offz + Z.of_nat f * 16) = (off + f * 16)%nat)
    by (intros f; lia).
  split; [| split].
  - rewrite map_map. cbn [regs].
    rewrite <- cut_frames_concat. f_equal. apply map_ext.
    intros f. rewrite Hstart. reflexivity.
  - intros fr Hin. apply in_map_iff in Hin. destruct Hin as (f & <- & _).
    cbn [regs]. apply firstn_le_length.
  - intros Hlen fr Hin. apply in_map_iff in Hin. destruct Hin as (f & <- & Hf).
    apply in_seq in Hf. cbn [regs].
    rewrite length_firstn, length_skipn, Hstart.
    assert (off = 64%nat).
    { unfold off. destruct (Z.ltb_spec (Z.of_nat (length bytes)) (64 + n * 16));
        [lia | reflexivity]. }
    lia.
Qed.

Lemma parseYM_frames_tile_data_witness :
  exists y,
    parseYM truncatedYM = inr y /\
    concat (map regs (parsed_frames y)) = [].
Proof.
  destruct (parseYM_frames_tile_data truncatedYM eq_refl) as (y & Hy & Hcat & _).
  exists y. split; [exact Hy |].
  rewrite Hcat. vm_compute in Hy. injection Hy as <-. reflexivity.
Defined.

Local Open Scope Q_scope.

Lemma silent_frame (s : AYReplayer) (r : list byte) (now : Q) :
  (forall ch, levelAsked (reg r (volReg ch)) = false) ->
  exists s',
    applyRegs s r now = Some s' /\
    (forall ch, gain_value (voice ch s') = 0) /\
    noise_gain_value (Noise s') = 0.
Proof.
  intros Hoff.
  destruct (applyRegs_total s r now) as (s' & Hs').
  destruct (applyRegs_gains s s' r now Hs') as (Hg & Hn & _).
  exists s'. split; [exact Hs' |]. split.
  - intros ch. rewrite (Hg ch). unfold toneGain. fold (toneOn r ch s).
    rewrite toneOn_bits, (Hoff ch). rewrite andb_false_r. reflexivity.
  - rewrite Hn, noiseGain_paths, !noisePathOn_bits, !Hoff.
    rewrite !andb_false_r. reflexivity.
Qed.

(** X18. Where a file ends before the frames its header declares, the
    frames that start at or after the end of the file have no registers,
    and applying such a frame puts the gain of every tone path and of the
    noise path to 0 and every tone frequency to the floor 0.0001: the
    missing part of a truncated track plays as silence. *)
Theorem truncated_tail_is_silent (bytes : list byte) (f : nat) (fr : Frame) :
  (length bytes <= 16 + f * 16)%nat ->
  forall y, parseYM bytes = inr y ->
  nth_error (parsed_frames y) f = Some fr ->
  regs fr = [] /\
  forall s now,
    exists s',
      applyRegs s (regs fr) now = Some s' /\
      (forall ch, gain_value (voice ch s') = 0 /\
                  osc_frequency (voice ch s') = (1 # 10000)) /\
      noise_gain_value (Noise s') = 0.
Proof.
  intros Hlen y Hy Hf.
  assert (Htag : includes supportedTags (tagOf bytes) = true).
  { unfold parseYM in Hy. cbv zeta in Hy.
    destruct (includes supportedTags (tagOf bytes)); [reflexivity | discriminate]. }
  rewrite (parseYM_supported bytes Htag) in Hy. cbv zeta in Hy.
  injection Hy as <-. cbn [parsed_frames] in Hf.
  assert (Hregs : regs fr = []).
  { rewrite nth_error_map in Hf.
    destruct (nth_error (seq 0 _) f) as [g |] eqn:Hg; [| discriminate].
    apply nth_error_nth with (d := 0%nat) in Hg as Hg'.
    assert (Hlt : (f < length (seq 0 (Z.to_nat
               (Z.lor (Z.lor (Z.lor (shl32 (reg bytes 4) 24)
                                    (shl32 (reg bytes 5) 16))
                             (shl32 (reg bytes 6) 8)) (reg bytes 7)))))%nat).
    { apply nth_error_Some. rewrite Hg. discriminate. }
    rewrite length_seq in Hlt. rewrite seq_nth in Hg' by exact Hlt.
    cbn [option_map] in Hf. injection Hf as <-. cbn [regs].
    rewrite skipn_all2; [reflexivity |].
    subst g. destruct (_ <? _)%Z; lia. }
  split; [exact Hregs |]. intros s now. rewrite Hregs.
  destruct (silent_frame s [] now) as (s' & Hs' & Hg0 & Hn0);
    [intros ch; destruct ch; reflexivity |].
  exists s'. split; [exact Hs' |]. split; [| exact Hn0].
  intros ch. split; [apply Hg0 |].
  destruct (applyRegs_voice s s' [] now ch Hs') as (fq & Hfq & Hosc).
  rewrite Hosc. destruct ch; cbn in Hfq; congruence.
Qed.

Lemma truncated_tail_is_silent_witness :
  exists s',
    applyRegs newAYReplayer [] 0 = Some s' /\
    noise_gain_value (Noise s') = 0.
Proof.
  assert (Hlen : (length truncatedYM <= 16 + 0 * 16)%nat) by (simpl; lia).
  destruct (truncated_tail_is_silent truncatedYM 0 (mkFrame []) Hlen _ eq_refl eq_refl)
    as (_ & Hsil).
  destruct (Hsil newAYReplayer 0) as (s' & Hs' & _ & Hn).
  exists s'. split; [exact Hs' | exact Hn].
Defined.

(** ** [loadAndParse] and the load button *)

Lemma isPrefix_both (a b c : list Ascii.ascii) :
  isPrefix a c = true -> isPrefix b c = true -> (length b <= length a)%nat ->
  isPrefix b a = true.
Proof.
  revert a c. induction b as [| y b IH]; intros a c Ha Hb Hlen; [reflexivity |].
  destruct a as [| x a]; [simpl in Hlen; lia |].
  destruct c as [| z c]; [discriminate |].
  simpl in Ha, Hb |- *.
  apply andb_true_iff in Ha. destruct Ha as (Hxz & Ha).
  apply andb_true_iff in Hb. destruct Hb as (Hyz & Hb).
  apply Ascii.eqb_eq in Hxz. apply Ascii.eqb_eq in Hyz. subst x y.
  rewrite Ascii.eqb_refl. simpl. apply (IH a c Ha Hb). simpl in Hlen. lia.
Qed.

(** Two endings of one name: the shorter is an ending of the longer. *)
Lemma endsWith_both (s a b : string) :
  endsWith s a = true -> endsWith s b = true ->
  (String.length b <= String.length a)%nat ->
  endsWith a b = true.
Proof.
  unfold endsWith. intros Ha Hb Hlen.
  apply (isPrefix_both _ _ _ Ha Hb).
  rewrite !length_rev.
  assert (L : forall t, length (list_ascii_of_string t) = String.length t).
  { induction t as [| c t IH]; simpl; [reflexivity | rewrite IH; reflexivity]. }
  rewrite !L. exact Hlen.
Qed.

Lemma find_all_false (X : Type) (f : X -> bool) (l : list X) :
  (forall x, In x l -> f x = false) -> find f l = None.
Proof.
  intros H. destruct (find f l) as [x |] eqn:E; [| reflexivity].
  apply find_some in E. destruct E as (Hin & Hfx).
  rewrite (H x Hin) in Hfx. discriminate.
Qed.

Section LoaderFacts.

Variable Entry : Type.
Variable entryName : Entry -> string.
Variable LHA_read : list byte -> option (list Entry).
Variable LHA_unpack : Entry -> option (list byte).

Local Abbreviation lp := (loadAndParse Entry entryName LHA_read LHA_unpack).

Lemma not_archive_ending (name suffix : string) :
  endsWith name suffix = true ->
  endsWith suffix ".lzh" = false -> endsWith suffix ".lha" = false ->
  (String.length suffix <= 4)%nat ->
  endsWith ".lzh" suffix = false -> endsWith ".lha" suffix = false ->
  endsWith name ".lzh" || endsWith name ".lha" = false.
Proof.
  intros Hs H1 H2 Hlen H3 H4.
  apply orb_false_iff. split.
  - destruct (endsWith name ".lzh") eqn:E; [| reflexivity].
    pose proof (endsWith_both name ".lzh" suffix E Hs Hlen) as H. congruence.
  - destruct (endsWith name ".lha") eqn:E; [| reflexivity].
    pose proof (endsWith_both name ".lha" suffix E Hs Hlen) as H. congruence.
Qed.

Lemma loadAndParse_ym (name : string) (bytes : list byte) :
  endsWith name ".ym" = true -> lp name bytes = liftYM (parseYM bytes).
Proof.
  intros Hym. unfold loadAndParse.
  rewrite (not_archive_ending name ".ym" Hym) by (reflexivity || (simpl; lia)).
  rewrite Hym. reflexivity.
Qed.

Lemma loadAndParse_ay (name : string) (bytes : list byte) :
  endsWith name ".ay" = true ->
  lp name bytes =
    inl (if String.eqb (string_of_list_byte (firstn 8 bytes)) "ZXAYEMUL"
         then AYDetecte else AYNonReconnu).
Proof.
  intros Hay. unfold loadAndParse.
  rewrite (not_archive_ending name ".ay" Hay) by (reflexivity || (simpl; lia)).
  assert (Hym : endsWith name ".ym" = false).
  { destruct (endsWith name ".ym") eqn:E; [| reflexivity].
    pose proof (endsWith_both name ".ym" ".ay" E Hay (Nat.le_refl _)) as H.
    discriminate. }
  rewrite Hym, Hay. destruct (String.eqb _ _); reflexivity.
Qed.

(** Every track that loads was parsed by [parseYM]. *)
Lemma loadAndParse_success (name : string) (bytes : list byte) (y : ParsedYM) :
  lp name bytes = inr y -> exists ym, parseYM ym = inr y.
Proof.
  unfold loadAndParse. intros H.
  assert (L : forall b, liftYM (parseYM b) = inr y -> parseYM b = inr y).
  { intros b Hb. destruct (parseYM b); [discriminate | cbn in Hb; congruence]. }
  destruct (endsWith name ".lzh" || endsWith name ".lha").
  - destruct (LHA_read bytes) as [entries |]; [| discriminate].
    destruct (find _ entries) as [e |]; [| discriminate].
    destruct (LHA_unpack e) as [ym |]; [| discriminate].
    exists ym. apply L. exact H.
  - destruct (endsWith name ".ym"); [exists bytes; apply L; exact H |].
    destruct (endsWith name ".ay"); [| discriminate].
    destruct (String.eqb _ _); discriminate.
Qed.

End LoaderFacts.

(** ** Loading: files refused and files accepted *)

Local Open Scope Z_scope.

Lemma nth_error_map_seq (X : Type) (g : nat -> X) (k f : nat) (x : X) :
  nth_error (map g (seq 0 k)) f = Some x -> (f < k)%nat /\ x = g f.
Proof.
  intros H.
  assert (Hlt : (f < length (map g (seq 0 k)))%nat)
    by (apply nth_error_Some; rewrite H; discriminate).
  rewrite length_map, length_seq in Hlt.
  split; [exact Hlt |].
  rewrite nth_error_map in H.
  rewrite (nth_error_nth' (seq 0 k) 0%nat) in H
    by (rewrite length_seq; exact Hlt).
  rewrite seq_nth in H by exact Hlt. cbn in H. congruence.
Qed.

(** C6, as stated, fails for truncated register data: a file named
    [tune.ym] with a supported tag that declares two frames and holds no
    register data is not refused; [parseYM] returns a track of two frames
    with no registers, [loadAndParse] hands it on, and the handler of the
    load button replaces the loaded track with it. *)
Lemma truncated_data_is_loaded :
  parseYM truncatedYM =
    inr {| meta := {| version := "YM5!"; meta_frames := 2; meta_rate := 50 |};
           parsed_frames := [mkFrame []; mkFrame []] |} /\
  loadAndParse unit (fun _ => "a.ym"%string) (fun _ => None) (fun _ => None)
               "tune.ym" truncatedYM
    = liftYM (parseYM truncatedYM) /\
  snd (onLoadFile unit (fun _ => "a.ym"%string) (fun _ => None) (fun _ => None)
                  loaded "tune.ym" truncatedYM) = None /\
  frames (fst (onLoadFile unit (fun _ => "a.ym"%string) (fun _ => None)
                          (fun _ => None) loaded "tune.ym" truncatedYM))
    = [mkFrame []; mkFrame []] /\
  frames (fst (onLoadFile unit (fun _ => "a.ym"%string) (fun _ => None)
                          (fun _ => None) loaded "tune.ym" truncatedYM))
    <> frames loaded.
Proof.
  repeat split. discriminate.
Qed.

(** C6, amended.  Whatever makes [loadAndParse] fail, the handler of the
    load button leaves the replayer, its loaded track included, exactly as
    it was and reports the failure.  The YM data is the bytes of a file
    whose name ends in [.ym], or what the LHA library unpacks from the first
    entry with a YM name of an archive ([.lzh], [.lha]).  When the first
    four bytes of the YM data are not one of the tags YM5!, YM6!, YM3!
    (data shorter than four bytes included), [parseYM] fails with an error
    that carries the tag, no track is built, and the load fails with that
    error.  When they are, nothing else is tested: [parseYM] returns (the
    embedding bounds the number of frames by no memory limit) a
    track whose frame count is the bytes 4 to 7 of the header, big-endian,
    as a signed 32-bit integer, with that many frames (none for a negative
    count); the frame number [f] holds the bytes from the position
    [off + 16 f] up to 16 of them, as many as the data has left there, and
    none when the data ends at or before that position, where [off] is 16
    when the data is shorter than 64 bytes and 16 bytes for each declared
    frame, and 64 otherwise; and the handler replaces the loaded track
    with that track, at rate 50. *)
Theorem load_rejects_unsupported_tag (Entry : Type) (entryName : Entry -> string)
  (LHA_read : list byte -> option (list Entry))
  (LHA_unpack : Entry -> option (list byte))
  (s : AYReplayer) (name : string) (bytes : list byte) :
  let res := loadAndParse Entry entryName LHA_read LHA_unpack name bytes in
  let out := onLoadFile Entry entryName LHA_read LHA_unpack s name bytes in
  (forall e, res = inl e -> out = (s, Some e)) /\
  (forall ym,
     (endsWith name ".ym" = true /\ ym = bytes) \/
     ((endsWith name ".lzh" = true \/ endsWith name ".lha" = true) /\
      exists entries e,
        LHA_read bytes = Some entries /\
        find (fun e => isYmName (entryName e)) entries = Some e /\
        LHA_unpack e = Some ym) ->
     (includes supportedTags (tagOf ym) = false ->
      parseYM ym = inl (YMVersionNonSupportee (tagOf ym)) /\
      res = inl (YMRejete (YMVersionNonSupportee (tagOf ym))) /\
      out = (s, Some (YMRejete (YMVersionNonSupportee (tagOf ym))))) /\
     (includes supportedTags (tagOf ym) = true ->
      exists y,
        parseYM ym = inr y /\ res = inr y /\
        out = (load s (Some (parsed_frames y)) (Some 50%Q), None) /\
        frames (fst out) = parsed_frames y /\
        version (meta y) = tagOf ym /\
        (let v := reg ym 4 * 2 ^ 24 + reg ym 5 * 2 ^ 16 + reg ym 6 * 2 ^ 8
                  + reg ym 7 in
         meta_frames (meta y) = if reg ym 4 <? 128 then v else v - 2 ^ 32) /\
        length (parsed_frames y) = Z.to_nat (meta_frames (meta y)) /\
        (let off := if Z.of_nat (length ym) <? 64 + meta_frames (meta y) * 16
                    then 16%nat else 64%nat in
         forall f fr,
           nth_error (parsed_frames y) f = Some fr ->
           regs fr = firstn 16 (skipn (off + f * 16) ym) /\
           length (regs fr) = Nat.min 16 (length ym - (off + f * 16)) /\
           ((length ym <= off + f * 16)%nat -> regs fr = [])))).
Proof.
  intros res out. split.
  - intros e He. unfold out, onLoadFile. fold res. rewrite He. reflexivity.
  - intros ym Hym.
    assert (Hres : res = liftYM (parseYM ym)).
    { destruct Hym as [(Hn & ->) | (Harch & entries & e & Hread & Hfind & Hunp)].
      - apply loadAndParse_ym. exact Hn.
      - unfold res, loadAndParse.
        assert (E : endsWith name ".lzh" || endsWith name ".lha" = true)
          by (apply orb_true_iff; exact Harch).
        rewrite E, Hread, Hfind, Hunp. reflexivity. }
    split; intros Htag.
    + assert (Hp : parseYM ym = inl (YMVersionNonSupportee (tagOf ym))).
      { unfold parseYM. cbv zeta. rewrite Htag. reflexivity. }
      assert (Hr : res = inl (YMRejete (YMVersionNonSupportee (tagOf ym))))
        by (rewrite Hres, Hp; reflexivity).
      split; [exact Hp |]. split; [exact Hr |].
      unfold out, onLoadFile. fold res. rewrite Hr. reflexivity.
    + pose proof (parseYM_supported ym Htag) as Hp. cbv zeta in Hp.
      pose proof (ym_frame_count ym) as Hn. cbv zeta in Hn.
      set (n := Z.lor _ _) in Hp, Hn.
      set (offz := if Z.of_nat (length ym) <? 64 + n * 16 then 16 else 64) in Hp.
      set (y := mkParsed _ _) in Hp.
      assert (Hr : res = inr y) by (rewrite Hres, Hp; reflexivity).
      exists y. split; [exact Hp |]. split; [exact Hr |].
      assert (Hout : out = (load s (Some (parsed_frames y)) (Some 50%Q), None)).
      { unfold out, onLoadFile. fold res. rewrite Hr. reflexivity. }
      split; [exact Hout |]. split; [rewrite Hout; reflexivity |].
      split; [reflexivity |]. split; [exact Hn |].
      split; [unfold y; cbn [parsed_frames meta meta_frames];
              rewrite length_map, length_seq; reflexivity |].
      cbn [meta meta_frames y]. fold n.
      set (off := if Z.of_nat (length ym) <? 64 + n * 16
                  then 16%nat else 64%nat).
      assert (Hoff : offz = Z.of_nat off)
        by (unfold offz, off; destruct (_ <? _); reflexivity).
      intros f fr Hf. unfold y in Hf. cbn [parsed_frames] in Hf.
      apply nth_error_map_seq in Hf. destruct Hf as (_ & ->). cbn [regs].
      replace (Z.to_nat (offz + Z.of_nat f * 16)) with (off + f * 16)%nat by lia.
      split; [reflexivity |]. split.
      * rewrite length_firstn, length_skipn. reflexivity.
      * intros Hlen. rewrite skipn_all2 by exact Hlen. reflexivity.
Qed.

(** A file named [tune.ym] and the YM entry of an archive, with the tag
    YM9!, are refused with the tag and the loaded track stays; the
    truncated file with the tag YM5! is accepted, as a track of two frames
    of which the second is empty. *)
Lemma load_rejects_unsupported_tag_witness :
  onLoadFile unit (fun _ => "a.ym"%string) (fun _ => None) (fun _ => None)
             loaded "tune.ym" wrongTagYM
    = (loaded, Some (YMRejete (YMVersionNonSupportee "YM9!"))) /\
  onLoadFile unit (fun _ => "a.ym"%string) (fun _ => Some [tt])
             (fun _ => Some wrongTagYM) loaded "tune.lzh" []
    = (loaded, Some (YMRejete (YMVersionNonSupportee "YM9!"))) /\
  exists y,
    parseYM truncatedYM = inr y /\
    length (parsed_frames y) = 2%nat /\
    forall fr, nth_error (parsed_frames y) 1 = Some fr -> regs fr = [].
Proof.
  split; [| split].
  - destruct (load_rejects_unsupported_tag unit (fun _ => "a.ym"%string)
                (fun _ => None) (fun _ => None) loaded "tune.ym" wrongTagYM)
      as (_ & H).
    destruct (H wrongTagYM) as (Hbad & _); [left; split; reflexivity |].
    destruct (Hbad eq_refl) as (_ & _ & Hout). exact Hout.
  - destruct (load_rejects_unsupported_tag unit (fun _ => "a.ym"%string)
                (fun _ => Some [tt]) (fun _ => Some wrongTagYM)
                loaded "tune.lzh" [])
      as (_ & H).
    destruct (H wrongTagYM) as (Hbad & _).
    { right. split; [left; reflexivity |].
      exists [tt], tt. repeat split. }
    destruct (Hbad eq_refl) as (_ & _ & Hout). exact Hout.
  - destruct (load_rejects_unsupported_tag unit (fun _ => "a.ym"%string)
                (fun _ => None) (fun _ => None) loaded "tune.ym" truncatedYM)
      as (_ & H).
    destruct (H truncatedYM) as (_ & Hgood); [left; split; reflexivity |].
    destruct (Hgood eq_refl)
      as (y & Hy & _ & _ & _ & _ & Hcount & Hlen & Hframes).
    exists y. split; [exact Hy |].
    cbv zeta in Hcount, Hframes.
    assert (Hc : meta_frames (meta y) = 2) by (rewrite Hcount; reflexivity).
    rewrite Hc in Hlen, Hframes.
    split; [exact Hlen |].
    intros fr Hfr. destruct (Hframes 1%nat fr Hfr) as (_ & _ & Hempty).
    apply Hempty. simpl. lia.
Defined.

Local Open Scope Q_scope.

(** X19. [loadAndParse] goes by the ending of the (lower-cased) file name,
    whatever the LHA library does.  A name ending in [.ay] never gives a
    track: the failure is the one for a detected AY file when the first
    eight bytes spell ZXAYEMUL and the one for an unrecognised AY file
    otherwise.  A name ending in [.ym] gives what [parseYM] gives on the
    bytes of the file.  A name with none of the endings [.lzh], [.lha],
    [.ym], [.ay] fails as an unsupported format, whatever the bytes.  An
    archive in which no entry name ends in [.ym] or [.ym] and a digit, in
    any case of the letters, fails for the lack of a YM entry. *)
Theorem loadAndParse_by_ending (Entry : Type) (entryName : Entry -> string)
  (LHA_read : list byte -> option (list Entry))
  (LHA_unpack : Entry -> option (list byte))
  (name : string) (bytes : list byte) :
  let res := loadAndParse Entry entryName LHA_read LHA_unpack name bytes in
  (endsWith name ".ay" = true ->
   res = inl (if String.eqb (string_of_list_byte (firstn 8 bytes)) "ZXAYEMUL"
              then AYDetecte else AYNonReconnu)) /\
  (endsWith name ".ym" = true -> res = liftYM (parseYM bytes)) /\
  (endsWith name ".lzh" = false -> endsWith name ".lha" = false ->
   endsWith name ".ym" = false -> endsWith name ".ay" = false ->
   res = inl FormatNonSupporte) /\
  (endsWith name ".lzh" = true \/ endsWith name ".lha" = true ->
   forall entries,
     LHA_read bytes = Some entries ->
     (forall e, In e entries -> isYmName (entryName e) = false) ->
     res = inl ArchiveSansYM).
Proof.
  intros res. split; [| split; [| split]].
  - apply loadAndParse_ay.
  - apply loadAndParse_ym.
  - intros H1 H2 H3 H4. unfold res, loadAndParse.
    rewrite H1, H2, H3, H4. reflexivity.
  - intros Harch entries Hread Hnone. unfold res, loadAndParse.
    assert (E : endsWith name ".lzh" || endsWith name ".lha" = true)
      by (apply orb_true_iff; exact Harch).
    rewrite E, Hread, (find_all_false _ _ _ Hnone). reflexivity.
Qed.

Lemma loadAndParse_by_ending_witness :
  loadAndParse unit (fun _ => "a.ym"%string) (fun _ => None) (fun _ => None)
               "tune.ay" truncatedYM
    = inl AYNonReconnu.
Proof.
  apply (loadAndParse_by_ending unit (fun _ => "a.ym"%string) (fun _ => None)
           (fun _ => None) "tune.ay" truncatedYM).
  reflexivity.
Defined.

(** X20. The load button is all or nothing.  When [loadAndParse] fails,
    for whatever reason, the replayer is left exactly as it was.  When it
    succeeds, the track came out of [parseYM] (so its tag is one of the
    three supported ones), the rate stored is 50, and nothing else
    changes: the timer of a track that is playing stays live and the index
    of its callback stays where it is, so the playback goes on in the new
    track. *)
Theorem load_button_all_or_nothing (Entry : Type) (entryName : Entry -> string)
  (LHA_read : list byte -> option (list Entry))
  (LHA_unpack : Entry -> option (list byte))
  (s : AYReplayer) (name : string) (bytes : list byte) :
  let res := loadAndParse Entry entryName LHA_read LHA_unpack name bytes in
  let out := onLoadFile Entry entryName LHA_read LHA_unpack s name bytes in
  (forall e, res = inl e -> out = (s, Some e)) /\
  (forall y, res = inr y ->
     (exists ym, parseYM ym = inr y) /\
     includes supportedTags (version (meta y)) = true /\
     snd out = None /\
     frames (fst out) = parsed_frames y /\ rate (fst out) = 50 /\
     timer (fst out) = timer s /\ play_i (fst out) = play_i s /\
     A (fst out) = A s /\ B (fst out) = B s /\ C (fst out) = C s /\
     Noise (fst out) = Noise s /\ env (fst out) = env s).
Proof.
  intros res out. split.
  - intros e He. unfold out, onLoadFile. fold res. rewrite He. reflexivity.
  - intros y Hy.
    destruct (loadAndParse_success Entry entryName LHA_read LHA_unpack
                name bytes y Hy) as (ym & Hym).
    split; [exists ym; exact Hym |].
    assert (Htag : includes supportedTags (tagOf ym) = true).
    { unfold parseYM in Hym. cbv zeta in Hym.
      destruct (includes supportedTags (tagOf ym)); [reflexivity | discriminate]. }
    rewrite (parseYM_supported ym Htag) in Hym. cbv zeta in Hym.
    injection Hym as <-.
    split; [exact Htag |].
    unfold out, onLoadFile. fold res. rewrite Hy. cbn.
    repeat split.
Qed.

Lemma load_button_all_or_nothing_witness :
  onLoadFile unit (fun _ => "a.ym"%string) (fun _ => None) (fun _ => None)
             (play loaded) "tune.lzh" truncatedYM
    = (play loaded, Some LHAFailure).
Proof.
  apply (load_button_all_or_nothing unit (fun _ => "a.ym"%string)
           (fun _ => None) (fun _ => None) (play loaded) "tune.lzh" truncatedYM).
  reflexivity.
Defined.

Example isYmName_cases :
  map isYmName ["SONG.YM"; "a.ym5"; "b.Ym"; "a.ymx"; "a.ym55"; "ym"; ""]%string
    = [true; true; true; false; false; false; false].
Proof. reflexivity. Qed.

(** ** The visualizer *)

Local Open Scope Z_scope.

Lemma trunc_inject (z : Z) : Num.trunc (inject_Z z) = z.
Proof. unfold Num.trunc, inject_Z. cbn [Qnum Qden]. apply Z.quot_1_r. Qed.



Local Open Scope Q_scope.

Lemma inject_nat_lt (i j : nat) :
  (i < j)%nat -> inject_Z (Z.of_nat i) < inject_Z (Z.of_nat j).
Proof. intros H. rewrite <- Zlt_Qlt. lia. Qed.

Lemma byte_fraction (b : byte) :
  0 <= inject_Z (Z.of_N (Byte.to_N b)) / 255 <= 1.
Proof.
  pose proof (Byte.to_N_bounded b) as Hb.
  assert (0 <= inject_Z (Z.of_N (Byte.to_N b)))
    by (unfold Qle, inject_Z; simpl; lia).
  assert (inject_Z (Z.of_N (Byte.to_N b)) <= 255)
    by (unfold Qle, inject_Z; simpl; lia).
  split; [apply Qle_shift_div_l | apply Qle_shift_div_r]; lra.
Qed.

(** X22. The oscilloscope stays on its canvas.  With the sample buffer
    any call of [setFFTSize] leaves (at least 32 samples), every sample
    gets a point: the abscissas start at 0, grow strictly with the sample
    number, end at the width of the canvas, and every ordinate lies
    between 0 and the height. *)
Theorem oscilloscope_within_canvas (n W H : Q) :
  0 < W -> 0 <= H ->
  let len := Z.to_nat (fftSizeOf n) in
  (32 <= len)%nat /\
  (forall i, (i < len)%nat -> exists x, oscX i len W = Some x /\ 0 <= x <= W) /\
  (exists x, oscX 0 len W = Some x /\ x == 0) /\
  (exists x, oscX (len - 1) len W = Some x /\ x == W) /\
  (forall i j x y, (i < j)%nat ->
     oscX i len W = Some x -> oscX j len W = Some y -> x < y) /\
  (forall b, 0 <= oscY b H <= H).
Proof.
  intros HW HH len.
  assert (Hlen : (32 <= len)%nat).
  { unfold len, fftSizeOf. lia. }
  set (d := inject_Z (Z.of_nat len - 1)).
  assert (Hd : 31 <= d) by (unfold d, Qle, inject_Z; simpl; lia).
  assert (Hdnz : ~ d == 0) by (apply pos_nonzero; lra).
  assert (Hx : forall i, oscX i len W = Some (inject_Z (Z.of_nat i) / d * W)).
  { intros i. unfold oscX. fold d. rewrite div_some by exact Hdnz. reflexivity. }
  split; [exact Hlen |]. split; [| split; [| split; [| split]]].
  - intros i Hi. rewrite Hx. eexists. split; [reflexivity |].
    assert (H0 : 0 <= inject_Z (Z.of_nat i)) by (unfold Qle, inject_Z; simpl; lia).
    assert (H1 : inject_Z (Z.of_nat i) <= d).
    { unfold d. rewrite <- Zle_Qle. lia. }
    assert (Hq0 : 0 <= inject_Z (Z.of_nat i) / d)
      by (apply Qle_shift_div_l; lra).
    assert (Hq1 : inject_Z (Z.of_nat i) / d <= 1)
      by (apply Qle_shift_div_r; lra).
    split; nra.
  - rewrite Hx. eexists. split; [reflexivity |].
    cbn [Z.of_nat]. field. exact Hdnz.
  - rewrite Hx. eexists. split; [reflexivity |].
    replace (Z.of_nat (len - 1)) with (Z.of_nat len - 1)%Z by lia.
    fold d. field. exact Hdnz.
  - intros i j x y Hij Hxi Hyj. rewrite Hx in Hxi, Hyj.
    injection Hxi as <-. injection Hyj as <-.
    pose proof (inject_nat_lt i j Hij) as Hlt.
    assert (Hq : inject_Z (Z.of_nat i) / d < inject_Z (Z.of_nat j) / d).
    { unfold Qdiv. apply Qmult_lt_compat_r; [| exact Hlt].
      apply Qinv_lt_0_compat. lra. }
    nra.
  - intros b. unfold oscY. pose proof (byte_fraction b) as Hb. split; nra.
Qed.

Lemma oscilloscope_within_canvas_witness :
  exists x, oscX 2047 (Z.to_nat (fftSizeOf 2048)) 800 = Some x /\ x == 800.
Proof.
  assert (HW : 0 < 800) by reflexivity.
  assert (HH : 0 <= 180) by discriminate.
  destruct (oscilloscope_within_canvas 2048 800 180 HW HH)
    as (_ & _ & _ & Hlast & _).
  exact Hlast.
Defined.

(** X23. The spectrogram stays on its canvas.  For [len] bins (at least
    one) and a canvas [SH] high, every bin gets a row between 0 and
    [SH - 1]; bin 0 is on the bottom row [SH - 1] and a higher bin is never
    on a lower row; the hue of a bin of value [b] is [255 - b], between 0
    and 255. *)
Theorem spectrogram_within_canvas (len : nat) (SH : Z) :
  (0 < len)%nat -> (0 < SH)%Z ->
  (forall i, (i < len)%nat ->
     exists y, specRow i len SH = Some y /\ (0 <= y <= SH - 1)%Z) /\
  specRow 0 len SH = Some (SH - 1)%Z /\
  (forall i j y1 y2, (i <= j)%nat ->
     specRow i len SH = Some y1 -> specRow j len SH = Some y2 ->
     (y2 <= y1)%Z) /\
  (forall b, specHue b = (255 - Z.of_N (Byte.to_N b))%Z /\
             (0 <= specHue b <= 255)%Z).
Proof.
  intros Hlen HSH.
  set (d := inject_Z (Z.of_nat len)).
  assert (Hd : 0 < d) by (apply inject_Z_pos; lia).
  assert (Hdnz : ~ d == 0) by (apply pos_nonzero; exact Hd).
  assert (HS : 0 < inject_Z SH) by (apply inject_Z_pos; exact HSH).
  assert (Hrow : forall i, specRow i len SH
                 = Some (SH - 1 - Qfloor (inject_Z (Z.of_nat i) / d * inject_Z SH))%Z).
  { intros i. unfold specRow. fold d. rewrite div_some by exact Hdnz. reflexivity. }
  assert (Hmono : forall i j, (i <= j)%nat ->
             inject_Z (Z.of_nat i) / d * inject_Z SH
             <= inject_Z (Z.of_nat j) / d * inject_Z SH).
  { intros i j Hij. pose proof (inject_nat_le i j Hij) as Hle.
    apply Qmult_le_compat_r; [| lra].
    unfold Qdiv. apply Qmult_le_compat_r; [exact Hle |].
    apply Qlt_le_weak, Qinv_lt_0_compat. exact Hd. }
  split; [| split; [| split]].
  - intros i Hi. rewrite Hrow. eexists. split; [reflexivity |].
    set (v := inject_Z (Z.of_nat i) / d * inject_Z SH).
    assert (Hv0 : 0 <= v).
    { pose proof (Hmono 0%nat i ltac:(lia)) as H. unfold v.
      assert (E : inject_Z (Z.of_nat 0) / d * inject_Z SH == 0)
        by (cbn [Z.of_nat]; field; exact Hdnz).
      rewrite E in H. exact H. }
    assert (Hv1 : v < inject_Z SH).
    { unfold v. pose proof (inject_nat_lt i len Hi) as Hlt. fold d in Hlt.
      assert (Hq : inject_Z (Z.of_nat i) / d < 1)
        by (apply Qlt_shift_div_r; lra).
      nra. }
    pose proof (Qfloor_le v) as F1. pose proof (Qlt_floor v) as F2.
    assert (G1 : (0 <= Qfloor v)%Z).
    { pose proof (Qfloor_resp_le 0 v Hv0) as G. exact G. }
    assert (G2 : inject_Z (Qfloor v) < inject_Z SH) by lra.
    rewrite <- Zlt_Qlt in G2. lia.
  - rewrite Hrow. f_equal.
    assert (E : inject_Z (Z.of_nat 0) / d * inject_Z SH == 0)
      by (cbn [Z.of_nat]; field; exact Hdnz).
    rewrite (Qfloor_comp _ _ E). change (Qfloor 0) with 0%Z. lia.
  - intros i j y1 y2 Hij H1 H2. rewrite Hrow in H1, H2.
    pose proof (Qfloor_resp_le _ _ (Hmono i j Hij)) as Hfl.
    assert (E1 : y1 = (SH - 1 - Qfloor (inject_Z (Z.of_nat i) / d * inject_Z SH))%Z)
      by congruence.
    assert (E2 : y2 = (SH - 1 - Qfloor (inject_Z (Z.of_nat j) / d * inject_Z SH))%Z)
      by congruence.
    rewrite E1, E2. lia.
  - intros b. unfold specHue.
    assert (E : 255 - inject_Z (Z.of_N (Byte.to_N b)) / 255 * 255
                == inject_Z (255 - Z.of_N (Byte.to_N b))).
    { unfold Zminus. rewrite inject_Z_plus, inject_Z_opp. field. }
    rewrite (Qfloor_comp _ _ E), Qfloor_Z.
    pose proof (Byte.to_N_bounded b). split; lia.
Qed.

Lemma spectrogram_within_canvas_witness :
  specRow 0 1024 256 = Some 255%Z.
Proof.
  apply (spectrogram_within_canvas 1024 256); [lia | reflexivity].
Defined.
